(** * A cancellable generator, a pool of workers and a fan-in stage

  Verification model of [precode.go]: the [Generator] and [Worker]
  functions and the goroutines started by [main] (one collector per
  worker, the closer of the result channel, and [main] itself, which
  drains the result channel and checks the totals).

  Every goroutine is a small transition system whose states are the
  program points at which the goroutine can be suspended.  The program
  is the interleaving of these systems; a scheduler action picks the
  goroutine that moves.  [int64] values are integers with the
  two's-complement wrap-around written out.

  The interleaving leaves time out: the deadline of the context may
  pass at any moment, which covers every run of the program.  A clock
  then adds the two durations of the source, the timeout of the context
  and the sleep of a worker, and keeps the runs that respect them. *)

From stdpp Require Import list.
From Stdlib Require Import ZArith Lia Sorted.

Local Open Scope Z_scope.

(** ** 64-bit signed integers *)

Module Int64.

Definition min_int : Z := - 2 ^ 63.
Definition max_int : Z := 2 ^ 63 - 1.

(** The value an [int64] variable holds after a result [z] is stored. *)
Definition wrap (z : Z) : Z := (z + 2 ^ 63) mod 2 ^ 64 - 2 ^ 63.

Definition add (a b : Z) : Z := wrap (a + b).
Definition sub (a b : Z) : Z := wrap (a - b).

Definition in_range (z : Z) : Prop := min_int <= z <= max_int.

(** [inputCount -= v] for every [v] of a slice, and the sum of a slice. *)
Definition sub_all (z : Z) (l : list Z) : Z := fold_left sub l z.
Definition sum (l : list Z) : Z := fold_left add l 0.

(** The sum of a list as an integer, before it is stored. *)
Definition total (l : list Z) : Z := foldr Z.add 0 l.

(** The [n]-th triangular number. *)
Definition triangle (n : Z) : Z := n * (n + 1) / 2.

End Int64.

(** ** [Generator] *)

Module Gen.

(** Program points of [Generator]; [i] is the local counter. *)
Inductive gstate :=
| GSelect (i : Z)   (* at the [select] *)
| GSend (i : Z)     (* [default] taken, at [ch <- i] *)
| GCall (i : Z)     (* value delivered, about to call [fn(i)] *)
| GRet (i : Z)      (* inside [fn(i)], then [i++] *)
| GClosing          (* [return] taken, the deferred [close(ch)] is due *)
| GDone.

Inductive gevent :=
| Sent (v : Z)       (* [ch <- v] completed *)
| Observed (v : Z)   (* [fn(v)] invoked *)
| Closed.            (* [close(ch)] *)

#[global] Instance gevent_eq_dec : EqDecision gevent.
Proof. solve_decision. Defined.

Definition start : gstate := GSelect 1.

(** One step; [done] tells whether [ctx.Done()] is ready. *)
Definition step (done : bool) (g : gstate) : option (gstate * list gevent) :=
  match g with
  | GSelect i => Some (if done then GClosing else GSend i, [])
  | GSend i => Some (GCall i, [Sent i])
  | GCall i => Some (GRet i, [Observed i])
  | GRet i => Some (GSelect (Int64.add i 1), [])
  | GClosing => Some (GDone, [Closed])
  | GDone => None
  end.

(** The executions of [Generator] in an arbitrary environment. *)
Inductive reach : list gevent -> gstate -> Prop :=
| reach_start : reach [] start
| reach_step evs g done g' e :
    reach evs g -> step done g = Some (g', e) -> reach (evs ++ e) g'.

(** Runs [Generator] against the successive readings [env] of
    [ctx.Done()]. *)
Fixpoint run (env : list bool) (g : gstate) : gstate * list gevent :=
  match env with
  | [] => (g, [])
  | done :: env' =>
      match step done g with
      | Some (g', e) => let '(g'', es) := run env' g' in (g'', e ++ es)
      | None => (g, [])
      end
  end.

Definition sent (evs : list gevent) : list Z :=
  omap (fun e => match e with Sent v => Some v | _ => None end) evs.
Definition observed (evs : list gevent) : list Z :=
  omap (fun e => match e with Observed v => Some v | _ => None end) evs.
Definition closes (evs : list gevent) : nat :=
  length (filter (fun e => e = Closed) evs).

(** The value of the counter in round [n] of the loop, rounds counted
    from 1. *)
Definition value (n : nat) : Z := Int64.wrap (Z.of_nat n).

(** The events of the first [n] rounds. *)
Fixpoint rounds (n : nat) : list gevent :=
  match n with
  | O => []
  | S m => rounds m ++ [Sent (value n); Observed (value n)]
  end.

(** The events so far, for a generator at [g] that has completed [n]
    calls of the observer. *)
Definition shape (n : nat) (g : gstate) (evs : list gevent) : Prop :=
  match g with
  | GSelect i | GSend i => i = value (S n) /\ evs = rounds n
  | GCall i => i = value (S n) /\ evs = rounds n ++ [Sent i]
  | GRet i => exists m, n = S m /\ i = value n /\ evs = rounds n
  | GClosing => evs = rounds n
  | GDone => evs = rounds n ++ [Closed]
  end.

End Gen.

(** ** [Worker] *)

Module Wk.

(** Program points of [Worker]. *)
Inductive wstate :=
| WRecv             (* at [range in] *)
| WSend (v : Z)     (* at [out <- v] *)
| WSleep            (* at [time.Sleep] *)
| WClosing          (* loop left, the deferred [close(out)] is due *)
| WDone.

Inductive wevent :=
| Got (v : Z)       (* [v] received from [in] *)
| Eof               (* [in] found closed and empty *)
| Put (v : Z)       (* [out <- v] completed *)
| Closed.           (* [close(out)] *)

#[global] Instance wevent_eq_dec : EqDecision wevent.
Proof. solve_decision. Defined.

(** What the input channel offers to a receive. *)
Inductive winput :=
| Value (v : Z)
| EndOfStream.

Definition start : wstate := WRecv.

(** One step; [inp] is consulted at the receive only. *)
Definition step (inp : winput) (w : wstate) : option (wstate * list wevent) :=
  match w with
  | WRecv =>
      match inp with
      | Value v => Some (WSend v, [Got v])
      | EndOfStream => Some (WClosing, [Eof])
      end
  | WSend v => Some (WSleep, [Put v])
  | WSleep => Some (WRecv, [])
  | WClosing => Some (WDone, [Closed])
  | WDone => None
  end.

(** The executions of [Worker] in an arbitrary environment. *)
Inductive reach : list wevent -> wstate -> Prop :=
| reach_start : reach [] start
| reach_step evs w inp w' e :
    reach evs w -> step inp w = Some (w', e) -> reach (evs ++ e) w'.

(** Runs [Worker] on the input stream [xs], which is then closed: each
    receive takes the next value of the stream. *)
Fixpoint feed (fuel : nat) (xs : list Z) (w : wstate) : wstate * list wevent :=
  match fuel with
  | O => (w, [])
  | S fuel' =>
      let '(inp, xs') :=
        match w, xs with
        | WRecv, x :: xs' => (Value x, xs')
        | _, _ => (EndOfStream, xs)
        end in
      match step inp w with
      | Some (w', e) => let '(w'', es) := feed fuel' xs' w' in (w'', e ++ es)
      | None => (w, [])
      end
  end.

Definition got (evs : list wevent) : list Z :=
  omap (fun e => match e with Got v => Some v | _ => None end) evs.
Definition put (evs : list wevent) : list Z :=
  omap (fun e => match e with Put v => Some v | _ => None end) evs.
Definition closes (evs : list wevent) : nat :=
  length (filter (fun e => e = Closed) evs).

(** The value a worker holds and has not forwarded yet. *)
Definition held (w : wstate) : list Z :=
  match w with WSend v => [v] | _ => [] end.

(** The events of a transfer. *)
Definition transfers (e : wevent) : Prop := e <> Eof /\ e <> Closed.

(** The events of forwarding the stream [xs]. *)
Definition relay (xs : list Z) : list wevent :=
  xs ≫= (fun x => [Got x; Put x]).

(** The events so far, for a worker at [w] that has received [xs]. *)
Definition shape (xs : list Z) (w : wstate) (evs : list wevent) : Prop :=
  match w with
  | WRecv | WSleep => evs = relay xs
  | WSend v => exists xs', xs = xs' ++ [v] /\ evs = relay xs' ++ [Got v]
  | WClosing => evs = relay xs ++ [Eof]
  | WDone => evs = relay xs ++ [Eof; Closed]
  end.

End Wk.

(** ** The checks at the end of [main] (lines 134-145) *)

Module Verifier.

(** The three messages of [log.Fatalf], with their arguments. *)
Inductive diag :=
| SumMismatch (inputSum sum : Z)
| CountMismatch (inputCount count : Z)
| TallyMismatch.

#[global] Instance diag_eq_dec : EqDecision diag.
Proof. solve_decision. Defined.

(** A computation that may call [log.Fatalf]: the diagnostics written so
    far, and the result unless the process has exited. *)
Definition proc (A : Type) : Type := list diag * option A.

Definition ret {A} (a : A) : proc A := ([], Some a).

Definition bind {A B} (m : proc A) (f : A -> proc B) : proc B :=
  match m with
  | (ds, None) => (ds, None)
  | (ds, Some a) => let '(ds', r) := f a in (ds ++ ds', r)
  end.

(** [log.Fatalf] writes the message and exits. *)
Definition fatalf (d : diag) : proc unit := ([d], None).

Definition when (b : bool) (m : proc unit) : proc unit :=
  if b then m else ret tt.

Declare Scope verifier_scope.
Notation "m >>> k" := (bind m (fun _ => k))
  (at level 100, k at level 200, right associativity) : verifier_scope.
Delimit Scope verifier_scope with verifier.

(** The result is the value [inputCount] has after the loop. *)
Definition verify (inputSum sum inputCount count : Z) (amounts : list Z)
  : proc Z :=
  (when (negb (inputSum =? sum)) (fatalf (SumMismatch inputSum sum)) >>>
   when (negb (inputCount =? count))
     (fatalf (CountMismatch inputCount count)) >>>
   let inputCount := Int64.sub_all inputCount amounts in
   when (negb (inputCount =? 0)) (fatalf TallyMismatch) >>>
   ret inputCount)%verifier.

End Verifier.

(** ** The program *)

Module Pipeline.

Import Gen Wk Verifier.

(** Program points of a collector (lines 91-103). *)
Inductive cstate :=
| CRecv             (* at [range in_cn] *)
| CTally (v : Z)    (* at [amounts[cn]++] *)
| CSend (v : Z)     (* at [chOut <- v] *)
| CExit             (* loop left, the deferred [wg.Done()] is due *)
| CDone.

(** Program points of the closer (lines 106-111). *)
Inductive clstate :=
| ClWait            (* at [wg.Wait()] *)
| ClClose           (* at [close(chOut)] *)
| ClDone.

(** Program points of [main]. *)
Inductive mstate :=
| MStart            (* lines 52-68, up to [go Generator] *)
| MWorker (i : nat) (* loop of lines 73-77 *)
| MAdd (i : nat)    (* loop of lines 89-104, at [wg.Add(1)] *)
| MGo (i : nat)     (* same loop, at the [go] statement *)
| MCloser           (* at the [go] statement of line 106 *)
| MRecv             (* at [range chOut] *)
| MAcc (v : Z)      (* at [count++; sum += v] *)
| MReport           (* at the three [fmt.Println] *)
| MVerify           (* at the checks *)
| MExit             (* returned *)
| MFatal.           (* exited through [log.Fatalf] *)

(** Everything that belongs to index [k]. *)
Record lane := Lane {
  wk : option wstate;     (* [Worker(chIn, outs[k])]; [None] before [go] *)
  out_closed : bool;      (* [outs[k]] is closed *)
  col : option cstate;    (* collector [k]; [None] before [go] *)
  amount : Z              (* [amounts[k]] *)
}.

Record state := State {
  cancelled : bool;   (* [ctx.Done()] is closed *)
  gen : option gstate;   (* [Generator]; [None] before [go] *)
  in_closed : bool;   (* [chIn] is closed *)
  inputSum : Z;
  inputCount : Z;
  lanes : list lane;   (* index [k]: [Worker] [k], [outs[k]], collector [k], [amounts[k]] *)
  wg : nat;   (* counter of the [sync.WaitGroup] *)
  closer : option clstate;   (* the goroutine that closes [chOut] *)
  res_buf : list Z;   (* values buffered in [chOut], oldest first *)
  res_closed : bool;   (* [chOut] is closed *)
  mn : mstate;   (* [main] *)
  count : Z;
  sum : Z;
  crashed : bool   (* a goroutine panicked *)
}.

Definition set_cancelled (x : bool) (s : state) : state :=
  State x (gen s) (in_closed s) (inputSum s) (inputCount s) (lanes s) (wg s) (closer s) (res_buf s) (res_closed s) (mn s) (count s) (sum s) (crashed s).
Definition set_gen (x : option gstate) (s : state) : state :=
  State (cancelled s) x (in_closed s) (inputSum s) (inputCount s) (lanes s) (wg s) (closer s) (res_buf s) (res_closed s) (mn s) (count s) (sum s) (crashed s).
Definition set_in_closed (x : bool) (s : state) : state :=
  State (cancelled s) (gen s) x (inputSum s) (inputCount s) (lanes s) (wg s) (closer s) (res_buf s) (res_closed s) (mn s) (count s) (sum s) (crashed s).
Definition set_inputSum (x : Z) (s : state) : state :=
  State (cancelled s) (gen s) (in_closed s) x (inputCount s) (lanes s) (wg s) (closer s) (res_buf s) (res_closed s) (mn s) (count s) (sum s) (crashed s).
Definition set_inputCount (x : Z) (s : state) : state :=
  State (cancelled s) (gen s) (in_closed s) (inputSum s) x (lanes s) (wg s) (closer s) (res_buf s) (res_closed s) (mn s) (count s) (sum s) (crashed s).
Definition set_lanes (x : list lane) (s : state) : state :=
  State (cancelled s) (gen s) (in_closed s) (inputSum s) (inputCount s) x (wg s) (closer s) (res_buf s) (res_closed s) (mn s) (count s) (sum s) (crashed s).
Definition set_wg (x : nat) (s : state) : state :=
  State (cancelled s) (gen s) (in_closed s) (inputSum s) (inputCount s) (lanes s) x (closer s) (res_buf s) (res_closed s) (mn s) (count s) (sum s) (crashed s).
Definition set_closer (x : option clstate) (s : state) : state :=
  State (cancelled s) (gen s) (in_closed s) (inputSum s) (inputCount s) (lanes s) (wg s) x (res_buf s) (res_closed s) (mn s) (count s) (sum s) (crashed s).
Definition set_res_buf (x : list Z) (s : state) : state :=
  State (cancelled s) (gen s) (in_closed s) (inputSum s) (inputCount s) (lanes s) (wg s) (closer s) x (res_closed s) (mn s) (count s) (sum s) (crashed s).
Definition set_res_closed (x : bool) (s : state) : state :=
  State (cancelled s) (gen s) (in_closed s) (inputSum s) (inputCount s) (lanes s) (wg s) (closer s) (res_buf s) x (mn s) (count s) (sum s) (crashed s).
Definition set_mn (x : mstate) (s : state) : state :=
  State (cancelled s) (gen s) (in_closed s) (inputSum s) (inputCount s) (lanes s) (wg s) (closer s) (res_buf s) (res_closed s) x (count s) (sum s) (crashed s).
Definition set_count (x : Z) (s : state) : state :=
  State (cancelled s) (gen s) (in_closed s) (inputSum s) (inputCount s) (lanes s) (wg s) (closer s) (res_buf s) (res_closed s) (mn s) x (sum s) (crashed s).
Definition set_sum (x : Z) (s : state) : state :=
  State (cancelled s) (gen s) (in_closed s) (inputSum s) (inputCount s) (lanes s) (wg s) (closer s) (res_buf s) (res_closed s) (mn s) (count s) x (crashed s).
Definition set_crashed (x : bool) (s : state) : state :=
  State (cancelled s) (gen s) (in_closed s) (inputSum s) (inputCount s) (lanes s) (wg s) (closer s) (res_buf s) (res_closed s) (mn s) (count s) (sum s) x.

Definition set_lane (k : nat) (ln : lane) (s : state) : state :=
  set_lanes (<[k := ln]> (lanes s)) s.

Inductive event :=
| EvCancel                          (* the deadline of [ctx] passed *)
| EvGen (e : gevent)
| EvWorker (k : nat) (e : wevent)
| EvTally (k : nat)                 (* [amounts[k]++] *)
| EvPublish (k : nat) (v : Z)       (* collector [k]: [chOut <- v] completed *)
| EvDone (k : nat)                  (* collector [k]: [wg.Done()] *)
| EvCloseRes                        (* [close(chOut)] *)
| EvRecv (v : Z)                    (* [main] received [v] from [chOut] *)
| EvReport (inputCount count inputSum sum : Z) (amounts : list Z)
| EvFatal (d : diag)
| EvExit
| EvPanic.

#[global] Instance event_eq_dec : EqDecision event.
Proof. solve_decision. Defined.

(** The scheduler picks the goroutine that moves; [ATimer] is the runtime
    closing [ctx.Done()]. *)
Inductive action :=
| ATimer
| AGen
| AWorker (k : nat)
| ACollector (k : nat)
| ACloser
| AMain.

Definition with_wk (w : wstate) (ln : lane) : lane :=
  Lane (Some w) (out_closed ln) (col ln) (amount ln).
Definition with_col (c : cstate) (ln : lane) : lane :=
  Lane (wk ln) (out_closed ln) (Some c) (amount ln).

Definition of_gen (e : list gevent) : list event := EvGen <$> e.
Definition of_worker (k : nat) (e : list wevent) : list event :=
  EvWorker k <$> e.

(** A run-time panic ends the process. *)
Definition panic (s : state) : option (state * list event) :=
  Some (set_crashed true s, [EvPanic]).

(** [ctx] exists from line 56 on. *)
Definition ctx_made (m : mstate) : bool :=
  match m with MStart => false | _ => true end.

(** No goroutine runs once the process has ended. *)
Definition halted (s : state) : bool :=
  crashed s || match mn s with MExit | MFatal => true | _ => false end.

Section Program.

(** [const NumOut = 5] in the source. *)
Variable NumOut : nat.

Definition init : state := {|
  cancelled := false; gen := None; in_closed := false;
  inputSum := 0; inputCount := 0;
  lanes := replicate NumOut (Lane None false None 0);
  wg := 0%nat; closer := None; res_buf := []; res_closed := false;
  mn := MStart; count := 0; sum := 0; crashed := false |}.

(** The deadline passes; the context exists once [main] has made it. *)
Definition step_timer (s : state) : option (state * list event) :=
  if negb (cancelled s) && ctx_made (mn s)
  then Some (set_cancelled true s, [EvCancel])
  else None.

(** [Generator]: what its steps do to the variables of [main].  The
    observer is the closure of lines 64-68. *)
Definition step_gen (s : state) : option (state * list event) :=
  g ← gen s;
  '(g', e) ← Gen.step (cancelled s) g;
  let s' := set_gen (Some g') s in
  match g with
  | GSelect _ => Some (s', of_gen e)
  | GSend _ =>
      (* [chIn] has no buffer: the send completes in [step_worker] *)
      if in_closed s then panic s else None
  | GCall i =>
      Some (set_inputSum (Int64.add (inputSum s) i) s', of_gen e)
  | GRet _ =>
      Some (set_inputCount (Int64.add (inputCount s) 1) s', of_gen e)
  | GClosing =>
      if in_closed s then panic s
      else Some (set_in_closed true s', of_gen e)
  | GDone => None
  end.

(** [Worker] [k].  A receive from [chIn] takes the value of the blocked
    [Generator]; a send to [outs[k]] hands the value to collector [k]. *)
Definition step_worker (k : nat) (s : state) : option (state * list event) :=
  ln ← lanes s !! k;
  w ← wk ln;
  match w with
  | WRecv =>
      if in_closed s then
        '(w', e) ← Wk.step EndOfStream w;
        Some (set_lane k (with_wk w' ln) s, of_worker k e)
      else
        match gen s with
        | Some (GSend i) =>
            '(g', eg) ← Gen.step (cancelled s) (GSend i);
            '(w', ew) ← Wk.step (Value i) w;
            Some (set_gen (Some g') (set_lane k (with_wk w' ln) s),
                  of_gen eg ++ of_worker k ew)
        | _ => None
        end
  | WSend v =>
      if out_closed ln then panic s
      else
        match col ln with
        | Some CRecv =>
            '(w', e) ← Wk.step EndOfStream w;
            Some (set_lane k (with_col (CTally v) (with_wk w' ln)) s,
                  of_worker k e)
        | _ => None
        end
  | WSleep =>
      '(w', e) ← Wk.step EndOfStream w;
      Some (set_lane k (with_wk w' ln) s, of_worker k e)
  | WClosing =>
      if out_closed ln then panic s
      else
        '(w', e) ← Wk.step EndOfStream w;
        Some (set_lane k (Lane (Some w') true (col ln) (amount ln)) s,
              of_worker k e)
  | WDone => None
  end.

(** Collector [k]; [chOut] has room for [NumOut] values. *)
Definition step_collector (k : nat) (s : state) : option (state * list event) :=
  ln ← lanes s !! k;
  c ← col ln;
  match c with
  | CRecv =>
      (* a value arrives in [step_worker] *)
      if out_closed ln then Some (set_lane k (with_col CExit ln) s, [])
      else None
  | CTally v =>
      Some (set_lane k
              (Lane (wk ln) (out_closed ln) (Some (CSend v))
                 (Int64.add (amount ln) 1)) s,
            [EvTally k])
  | CSend v =>
      if res_closed s then panic s
      else if (length (res_buf s) <? NumOut)%nat then
        Some (set_res_buf (res_buf s ++ [v]) (set_lane k (with_col CRecv ln) s),
              [EvPublish k v])
      else None
  | CExit =>
      match wg s with
      | O => panic s
      | S n => Some (set_wg n (set_lane k (with_col CDone ln) s), [EvDone k])
      end
  | CDone => None
  end.

Definition step_closer (s : state) : option (state * list event) :=
  c ← closer s;
  match c with
  | ClWait =>
      match wg s with
      | O => Some (set_closer (Some ClClose) s, [])
      | S _ => None
      end
  | ClClose =>
      if res_closed s then panic s
      else Some (set_res_closed true (set_closer (Some ClDone) s), [EvCloseRes])
  | ClDone => None
  end.

Definition step_main (s : state) : option (state * list event) :=
  match mn s with
  | MStart => Some (set_gen (Some Gen.start) (set_mn (MWorker 0) s), [])
  | MWorker i =>
      if (i <? NumOut)%nat then
        ln ← lanes s !! i;
        Some (set_lane i (with_wk Wk.start ln) (set_mn (MWorker (S i)) s), [])
      else Some (set_mn (MAdd 0) s, [])
  | MAdd i =>
      if (i <? NumOut)%nat then Some (set_wg (S (wg s)) (set_mn (MGo i) s), [])
      else Some (set_mn MCloser s, [])
  | MGo i =>
      ln ← lanes s !! i;
      Some (set_lane i (with_col CRecv ln) (set_mn (MAdd (S i)) s), [])
  | MCloser => Some (set_closer (Some ClWait) (set_mn MRecv s), [])
  | MRecv =>
      match res_buf s with
      | v :: rest => Some (set_res_buf rest (set_mn (MAcc v) s), [EvRecv v])
      | [] => if res_closed s then Some (set_mn MReport s, []) else None
      end
  | MAcc v =>
      Some (set_count (Int64.add (count s) 1)
              (set_sum (Int64.add (sum s) v) (set_mn MRecv s)), [])
  | MReport =>
      Some (set_mn MVerify s,
            [EvReport (inputCount s) (count s) (inputSum s) (sum s)
               (amount <$> lanes s)])
  | MVerify =>
      match verify (inputSum s) (sum s) (inputCount s) (count s)
              (amount <$> lanes s) with
      | (ds, Some rest) =>
          Some (set_inputCount rest (set_mn MExit s), (EvFatal <$> ds) ++ [EvExit])
      | (ds, None) => Some (set_mn MFatal s, EvFatal <$> ds)
      end
  | MExit | MFatal => None
  end.

Definition step (a : action) (s : state) : option (state * list event) :=
  if halted s then None
  else
    match a with
    | ATimer => step_timer s
    | AGen => step_gen s
    | AWorker k => step_worker k s
    | ACollector k => step_collector k s
    | ACloser => step_closer s
    | AMain => step_main s
    end.

(** Runs a schedule; [None] when it asks for a step that is not enabled. *)
Fixpoint exec (sched : list action) (s : state) : option (state * list event) :=
  match sched with
  | [] => Some (s, [])
  | a :: sched' =>
      '(s', e) ← step a s;
      '(s'', es) ← exec sched' s';
      Some (s'', e ++ es)
  end.

(** The states the program reaches, with the events so far. *)
Inductive reach : list event -> state -> Prop :=
| reach_init : reach [] init
| reach_step tr s a s' e :
    reach tr s -> step a s = Some (s', e) -> reach (tr ++ e) s'.

End Program.

(** Projections of a trace. *)
Definition gen_events (tr : list event) : list gevent :=
  omap (fun e => match e with EvGen g => Some g | _ => None end) tr.
Definition worker_events (k : nat) (tr : list event) : list wevent :=
  omap (fun e => match e with
                 | EvWorker k' w => if decide (k' = k) then Some w else None
                 | _ => None
                 end) tr.
Definition sent (tr : list event) : list Z := Gen.sent (gen_events tr).
Definition observed (tr : list event) : list Z := Gen.observed (gen_events tr).
Definition received (tr : list event) : list Z :=
  omap (fun e => match e with EvRecv v => Some v | _ => None end) tr.
Definition tallied (tr : list event) : list nat :=
  omap (fun e => match e with EvTally k => Some k | _ => None end) tr.
Definition done_signals (tr : list event) : list nat :=
  omap (fun e => match e with EvDone k => Some k | _ => None end) tr.

(** The values on their way: held by a worker or by a collector, or
    buffered in [chOut]. *)
Definition lane_held (ln : lane) : list Z :=
  match wk ln with Some w => Wk.held w | None => [] end ++
  match col ln with Some (CTally v) | Some (CSend v) => [v] | _ => [] end.
Definition in_flight (s : state) : list Z :=
  (lanes s ≫= lane_held) ++ res_buf s.

(** The value [main] has received and not added yet. *)
Definition pending (s : state) : list Z :=
  match mn s with MAcc v => [v] | _ => [] end.

(** A collector that has been added to the wait group and has not
    called [wg.Done()]. *)
Definition active (ln : lane) : nat :=
  match col ln with None | Some CDone => 0 | Some _ => 1 end.

(** A collector that has counted a value and not published it yet. *)
Definition publishing (ln : lane) : nat :=
  match col ln with Some (CSend _) => 1 | _ => 0 end.

(** How far the two loops of [main] that start goroutines have come. *)
Definition workers_started (n : nat) (m : mstate) : nat :=
  match m with MStart => 0 | MWorker i => i | _ => n end.
Definition collectors_started (n : nat) (m : mstate) : nat :=
  match m with MStart | MWorker _ => 0 | MAdd i | MGo i => i | _ => n end.
Definition adding (m : mstate) : nat :=
  match m with MGo _ => 1 | _ => 0 end.
Definition setting_up (m : mstate) : Prop :=
  match m with
  | MStart | MWorker _ | MAdd _ | MGo _ | MCloser => True
  | _ => False
  end.
Definition drained (m : mstate) : Prop :=
  match m with MReport | MVerify | MExit | MFatal => True | _ => False end.

(** What holds of index [k] in every reachable state. *)
Record lane_ok (n : nat) (m : mstate) (inc : bool) (k : nat) (ln : lane)
  : Prop := LaneOk {
  lo_wk : wk ln = None <-> (workers_started n m <= k)%nat;
  lo_col : col ln = None <-> (collectors_started n m <= k)%nat;
  lo_out : out_closed ln = true <-> wk ln = Some WDone;
  lo_eof : wk ln = Some WClosing \/ wk ln = Some WDone -> inc = true;
  lo_exit : col ln = Some CExit \/ col ln = Some CDone -> out_closed ln = true
}.

(** The control state of every reachable state. *)
Record skeleton (n : nat) (s : state) : Prop := Skeleton {
  sk_crashed : crashed s = false;
  sk_len : length (lanes s) = n;
  sk_mn : match mn s with
          | MWorker i | MAdd i => (i <= n)%nat
          | MGo i => (i < n)%nat
          | _ => True
          end;
  sk_gen : gen s = None <-> mn s = MStart;
  sk_in : in_closed s = true <-> gen s = Some GDone;
  sk_lane : forall k ln, lanes s !! k = Some ln ->
            lane_ok n (mn s) (in_closed s) k ln;
  sk_wg : wg s = (sum_list_with active (lanes s) + adding (mn s))%nat;
  sk_closer : closer s = None <-> setting_up (mn s);
  sk_closing : closer s = Some ClClose \/ closer s = Some ClDone -> wg s = O;
  sk_res : res_closed s = true <-> closer s = Some ClDone;
  sk_drained : drained (mn s) -> res_closed s = true;
  sk_empty : drained (mn s) -> res_buf s = []
}.

(** Number of occurrences. *)
Definition occ {A} `{EqDecision A} (v : A) (l : list A) : nat :=
  length (filter (fun x => x = v) l).

(** [1] while the observer has added to [inputSum] and not yet to
    [inputCount]. *)
Definition in_callback (s : state) : Z :=
  match gen s with Some (GRet _) => 1 | _ => 0 end.

(** How the variables of every reachable state follow from the events. *)
Record ledger (n : nat) (tr : list event) (s : state) : Prop := Ledger {
  lg_gen : match gen s with
           | None => gen_events tr = []
           | Some g => Gen.reach (gen_events tr) g
           end;
  lg_worker : forall k ln, lanes s !! k = Some ln ->
              match wk ln with
              | None => worker_events k tr = []
              | Some w => Wk.reach (worker_events k tr) w
              end;
  lg_sum : inputSum s = Int64.sum (observed tr);
  lg_count : mn s <> MExit ->
             inputCount s =
               Int64.wrap (Z.of_nat (length (observed tr)) - in_callback s);
  lg_flow : forall v,
            occ v (sent tr) =
              (occ v (received tr) +
               sum_list_with (fun ln => occ v (lane_held ln)) (lanes s) +
               occ v (res_buf s))%nat;
  lg_acc_count : count s =
                   Int64.wrap (Z.of_nat (length (received tr)) -
                               Z.of_nat (length (pending s)));
  lg_acc_sum : sum s =
                 Int64.wrap (Int64.total (received tr) -
                             Int64.total (pending s));
  lg_amount : forall k ln, lanes s !! k = Some ln ->
              amount ln = Int64.wrap (Z.of_nat (occ k (tallied tr)));
  lg_tallied : length (tallied tr) =
                 (length (received tr) + length (res_buf s) +
                  sum_list_with publishing (lanes s))%nat;
  lg_index : Forall (fun k => (k < n)%nat) (tallied tr)
}.

(** The diagnostics of [log.Fatalf] in a trace. *)
Definition fatals (tr : list event) : list diag :=
  omap (fun e => match e with EvFatal d => Some d | _ => None end) tr.

(** What the events of every reachable state say about closes, exits
    and reports. *)
Record audit (n : nat) (tr : list event) (s : state) : Prop := Audit {
  au_in : occ (EvGen Gen.Closed) tr = if in_closed s then 1%nat else 0%nat;
  au_out : forall k ln, lanes s !! k = Some ln ->
           occ (EvWorker k Wk.Closed) tr =
             if out_closed ln then 1%nat else 0%nat;
  au_done : forall k ln, lanes s !! k = Some ln ->
            occ k (done_signals tr) =
              match col ln with Some CDone => 1%nat | _ => 0%nat end;
  au_res : occ EvCloseRes tr = if res_closed s then 1%nat else 0%nat;
  au_order : forall pre post, tr = pre ++ EvCloseRes :: post ->
             forall k, (k < n)%nat -> k ∈ done_signals pre;
  au_panic : occ EvPanic tr = 0%nat;
  au_fatal : fatals tr = [] /\ mn s <> MFatal;
  au_report : forall ic c isum sm am, EvReport ic c isum sm am ∈ tr ->
              ic = c /\ isum = sm /\ Int64.sum am = c;
  au_exit : occ EvExit tr = match mn s with MExit => 1%nat | _ => 0%nat end;
  au_rest : mn s = MExit -> inputCount s = 0;
  au_pending : forall v, mn s = MAcc v -> v ∈ received tr
}.

(** A bound on the number of steps left once the deadline has passed:
    what each goroutine has left to do, the values on their way
    included. *)
Definition gen_cost (g : option gstate) : nat :=
  match g with
  | None | Some GDone => 0
  | Some GClosing => 1
  | Some (GSelect _) => 2
  | Some (GRet _) => 3
  | Some (GCall _) => 4
  | Some (GSend _) => 12
  end.
Definition worker_cost (w : option wstate) : nat :=
  match w with
  | Some WDone => 0
  | Some WClosing => 1
  | None | Some WRecv => 2
  | Some WSleep => 3
  | Some (WSend _) => 8
  end.
Definition collector_cost (c : option cstate) : nat :=
  match c with
  | Some CDone => 0
  | Some CExit => 1
  | None | Some CRecv => 2
  | Some (CSend _) => 5
  | Some (CTally _) => 6
  end.
Definition lane_cost (ln : lane) : nat :=
  worker_cost (wk ln) + collector_cost (col ln).
Definition closer_cost (c : option clstate) : nat :=
  match c with
  | None | Some ClDone => 0
  | Some ClClose => 1
  | Some ClWait => 2
  end.
Definition main_cost (n : nat) (m : mstate) : nat :=
  match m with
  | MExit | MFatal => 0
  | MVerify => 1
  | MReport => 2
  | MRecv => 3
  | MAcc _ => 4
  | MCloser => 6
  | MGo i => 6 + 2 * (n - i)
  | MAdd i => 7 + 2 * (n - i)
  | MWorker i => 8 + 2 * n + (n - i)
  | MStart => 11 + 3 * n
  end.
Definition measure (n : nat) (s : state) : nat :=
  gen_cost (gen s) + sum_list_with lane_cost (lanes s) +
  2 * length (res_buf s) + closer_cost (closer s) + main_cost n (mn s).

(** A generator that will not send: the deadline has passed and it is at
    the [select], or past it on the way out. *)
Definition stopping (s : state) : Prop :=
  cancelled s = true /\
  ((exists i, gen s = Some (GSelect i)) \/ gen s = Some GClosing \/
   gen s = Some GDone).

(** ** Order, deadline and capacity *)

(** The values collector [k] has put into [chOut], and those of all
    collectors, oldest first. *)
Definition published (k : nat) (tr : list event) : list Z :=
  omap (fun e => match e with
                 | EvPublish k' v => if decide (k' = k) then Some v else None
                 | _ => None
                 end) tr.
Definition published_all (tr : list event) : list Z :=
  omap (fun e => match e with EvPublish _ v => Some v | _ => None end) tr.

(** The value a collector has taken from its worker and not put into
    [chOut] yet. *)
Definition col_held (ln : lane) : list Z :=
  match col ln with Some (CTally v) | Some (CSend v) => [v] | _ => [] end.

(** [1] while a collector has taken a value and not counted it yet. *)
Definition tallying (ln : lane) : nat :=
  match col ln with Some (CTally _) => 1 | _ => 0 end.

(** The order in which the values travel, in every reachable state. *)
Record order (tr : list event) (s : state) : Prop := Order {
  or_got : forall k, Wk.got (worker_events k tr) `sublist_of` sent tr;
  or_put : forall k ln, lanes s !! k = Some ln ->
           Wk.put (worker_events k tr) = published k tr ++ col_held ln;
  or_tally : forall k ln, lanes s !! k = Some ln ->
             length (Wk.put (worker_events k tr)) =
               (occ k (tallied tr) + tallying ln)%nat;
  or_fifo : published_all tr = received tr ++ res_buf s
}.

(** The events after the deadline has passed. *)
Fixpoint after_cancel (tr : list event) : list event :=
  match tr with
  | [] => []
  | EvCancel :: tr' => tr'
  | _ :: tr' => after_cancel tr'
  end.

(** The deadline passes once, and the generator sends at most one value
    afterwards: the one it was blocked on. *)
Record deadline (tr : list event) (s : state) : Prop := Deadline {
  dl_once : occ EvCancel tr = if cancelled s then 1%nat else 0%nat;
  dl_sent : cancelled s = true ->
            match gen s with
            | Some (GSend _) => sent (after_cancel tr) = []
            | _ => (length (sent (after_cancel tr)) <= 1)%nat
            end
}.

(** ** Time *)

(** The clock counts the milliseconds since the context was made
    (line 56).  [time.Sleep(time.Millisecond)] (line 47) ends no sooner
    than a millisecond after it began; [ctx.Done()] is closed no sooner
    than [timeout] milliseconds after the context was made
    ([1*time.Second] in the source) and no later than [late]
    milliseconds after that. *)
Record tstate := TState {
  base : state;
  now : nat;          (* milliseconds since the context was made *)
  wake : list nat     (* index [k]: [Worker] [k] sleeps until then *)
}.

Inductive taction :=
| Tick                (* a millisecond passes *)
| Act (a : action).

(** [Worker] [k] is at [out <- v]; it is at [time.Sleep]. *)
Definition sending (k : nat) (s : state) : bool :=
  match lanes s !! k with
  | Some ln => match wk ln with Some (WSend _) => true | _ => false end
  | None => false
  end.
Definition sleeping (k : nat) (s : state) : bool :=
  match lanes s !! k with
  | Some ln => match wk ln with Some WSleep => true | _ => false end
  | None => false
  end.

Definition wake_of (k : nat) (wake : list nat) : nat := default O (wake !! k).

Section Clock.

Variables NumOut timeout late : nat.

(** What the clock lets a goroutine do: the timer does not fire before
    the deadline, a sleeping worker does not go on before its sleep is
    over. *)
Definition due (a : action) (s : state) (now : nat) (wake : list nat)
  : bool :=
  match a with
  | ATimer => (timeout <=? now)%nat
  | AWorker k => negb (sleeping k s) || (wake_of k wake <=? now)%nat
  | _ => true
  end.

(** A worker that has sent goes to sleep for a millisecond. *)
Definition wake_after (a : action) (s : state) (now : nat) (wake : list nat)
  : list nat :=
  match a with
  | AWorker k => if sending k s then <[k := S now]> wake else wake
  | _ => wake
  end.

Definition tinit : tstate := TState (init NumOut) O (replicate NumOut O).

Definition tstep (x : taction) (t : tstate) : option (tstate * list event) :=
  match x with
  | Tick =>
      (* the deadline is not missed by more than [late] *)
      if ctx_made (mn (base t)) &&
         (cancelled (base t) || (now t <? timeout + late)%nat)
      then Some (TState (base t) (S (now t)) (wake t), [])
      else None
  | Act a =>
      if due a (base t) (now t) (wake t) then
        '(s', e) ← step NumOut a (base t);
        Some (TState s' (now t) (wake_after a (base t) (now t) (wake t)), e)
      else None
  end.

Fixpoint texec (sched : list taction) (t : tstate)
  : option (tstate * list event) :=
  match sched with
  | [] => Some (t, [])
  | x :: sched' =>
      '(t', e) ← tstep x t;
      '(t'', es) ← texec sched' t';
      Some (t'', e ++ es)
  end.

(** The states the program reaches as time passes. *)
Inductive treach : list event -> tstate -> Prop :=
| treach_init : treach [] tinit
| treach_step tr t x t' e :
    treach tr t -> tstep x t = Some (t', e) -> treach (tr ++ e) t'.

End Clock.

(** The workers that took the values sent, in the order of the sends. *)
Definition getters (tr : list event) : list nat :=
  omap (fun e => match e with
                 | EvWorker k (Got _) => Some k
                 | _ => None
                 end) tr.

(** What the clock says about the values taken, in every state reached
    as time passes. *)
Record clock (n timeout late : nat) (tr : list event) (s : state)
    (now : nat) (wake : list nat) : Prop := Clock {
  ck_len : length wake = n;
  ck_now : cancelled s = false -> (now <= timeout + late)%nat;
  ck_take : length (sent tr) = length (getters tr);
  ck_index : Forall (fun k => (k < n)%nat) (getters tr);
  ck_worker : forall k ln, lanes s !! k = Some ln ->
              (occ k (getters tr) <=
                 match wk ln with
                 | Some WSleep => wake_of k wake
                 | Some (WSend _) => S now
                 | _ => now
                 end)%nat /\
              (wake_of k wake <= S now)%nat;
  ck_before : cancelled s = true ->
              (length (sent tr) <=
                 n * S (timeout + late) +
                 length (sent (after_cancel tr)))%nat
}.

(** ** Sample runs *)

(** Two workers and two values, the deadline passing while the second
    value is on its way; the run stops when [main] has left its loop. *)
Definition demo_sched : list action :=
  [AMain; AMain; AMain; AMain; AMain; AMain; AMain; AMain; AMain; AMain;
   AGen; AWorker 0; AGen; AGen; AGen; AWorker 1; ATimer; AGen; AGen; AGen; AGen;
   AWorker 0; AWorker 1; ACollector 0; ACollector 1; ACollector 1; ACollector 0;
   AWorker 0; AWorker 1; AWorker 0; AWorker 1; AWorker 0; AWorker 1;
   ACollector 0; ACollector 1; ACollector 0; ACollector 1;
   ACloser; AMain; AMain; AMain; AMain; ACloser; AMain].
Definition demo : option (state * list event) :=
  Eval vm_compute in exec 2 demo_sched (init 2).
Definition demo_state : state :=
  match demo with Some (s, _) => s | None => init 2 end.
Definition demo_trace : list event :=
  match demo with Some (_, tr) => tr | None => [] end.

(** Five workers; the deadline passes when the generator has left its
    first [select] through [default] and waits in [ch <- 1]. *)
Definition late_sched : list action :=
  [AMain; AGen; ATimer] ++ replicate 18 AMain ++
  [AWorker 0; AGen; AGen; AGen; AGen;
   AWorker 0; AWorker 0; AWorker 0; AWorker 0;
   AWorker 1; AWorker 1; AWorker 2; AWorker 2; AWorker 3; AWorker 3;
   AWorker 4; AWorker 4;
   ACollector 0; ACollector 0; ACollector 0; ACollector 0;
   ACollector 1; ACollector 1; ACollector 2; ACollector 2;
   ACollector 3; ACollector 3; ACollector 4; ACollector 4;
   ACloser; ACloser; AMain; AMain; AMain; AMain; AMain].
Definition late : option (state * list event) :=
  Eval vm_compute in exec 5 late_sched (init 5).
Definition late_trace : list event :=
  match late with Some (_, tr) => tr | None => [] end.
Definition late_state : state :=
  match late with Some (s, _) => s | None => init 5 end.

(** Five workers; the deadline passes before the generator reaches its
    first [select]. *)
Definition prompt_sched : list action := [AMain; ATimer].
Definition prompt : option (state * list event) :=
  Eval vm_compute in exec 5 prompt_sched (init 5).
Definition prompt_state : state :=
  match prompt with Some (s, _) => s | None => init 5 end.
Definition prompt_trace : list event :=
  match prompt with Some (_, tr) => tr | None => [] end.
Definition rest_sched : list action :=
  replicate 18 AMain ++
  [AGen; AGen; AWorker 0; AWorker 0; AWorker 1; AWorker 1].
Definition rest : option (state * list event) :=
  Eval vm_compute in exec 5 rest_sched prompt_state.
Definition rest_state : state :=
  match rest with Some (s, _) => s | None => init 5 end.
Definition rest_trace : list event :=
  match rest with Some (_, tr) => tr | None => [] end.

(** Five workers, all goroutines started. *)
Definition setup : list action := replicate 19 AMain.

(** The states in which every goroutine waits and nothing is on its
    way. *)
Definition steady_at (i inputSum inputCount amount0 count sum : Z) : state := {|
  cancelled := false; gen := Some (GSelect i); in_closed := false;
  inputSum := inputSum; inputCount := inputCount;
  lanes := Lane (Some WRecv) false (Some CRecv) amount0 ::
           replicate 4 (Lane (Some WRecv) false (Some CRecv) 0);
  wg := 5%nat; closer := Some ClWait; res_buf := []; res_closed := false;
  mn := MRecv; count := count; sum := sum; crashed := false |}.

(** Such a state, [m] values having gone through worker 0; [steady 0]
    is the state after [setup]. *)
Definition steady (m : nat) : state :=
  steady_at (value (S m))
    (Int64.wrap (Int64.triangle (Z.of_nat m))) (Int64.wrap (Z.of_nat m))
    (Int64.wrap (Z.of_nat m))
    (Int64.wrap (Z.of_nat m)) (Int64.wrap (Int64.triangle (Z.of_nat m))).

(** Five workers, a second and no delay: two values go through worker 0,
    a millisecond apart; the deadline passes on time and the program
    runs to its end. *)
Definition timed_round : list taction :=
  [Act AGen; Act (AWorker 0); Act AGen; Act AGen; Act (AWorker 0); Tick;
   Act (AWorker 0); Act (ACollector 0); Act (ACollector 0);
   Act AMain; Act AMain].
Definition timed_sched : list taction :=
  (Act <$> setup) ++ timed_round ++ timed_round ++ replicate 998 Tick ++
  [Act ATimer; Act AGen; Act AGen] ++
  (Act <$> (seq 0 5 ≫= fun k =>
              [AWorker k; AWorker k; ACollector k; ACollector k])) ++
  [Act ACloser; Act ACloser; Act AMain; Act AMain; Act AMain].
Definition timed : option (tstate * list event) :=
  Eval vm_compute in texec 5 1000 0 timed_sched (tinit 5).
Definition timed_state : tstate :=
  match timed with Some (t, _) => t | None => tinit 5 end.
Definition timed_trace : list event :=
  match timed with Some (_, tr) => tr | None => [] end.

(** ** A statement that does not hold *)

(** A deadline that passes before the first value is sent keeps the
    generator from sending. *)
Definition cancel_before_first_value (n : nat) : Prop :=
  forall tr s pre post, reach n tr s -> tr = pre ++ EvCancel :: post ->
    sent pre = [] -> sent tr = [] /\ observed tr = [].

(** A marker for a hypothesis that forward chaining has looked at. *)
Definition kept (P : Prop) : Prop := P.

End Pipeline.

(** * Properties *)

(** ** Arithmetic of [int64] *)

Section Int64Facts.

Import Int64.

Lemma wrap_range z : in_range (wrap z).
Proof.
  unfold in_range, wrap, min_int, max_int.
  pose proof (Z.mod_pos_bound (z + 2 ^ 63) (2 ^ 64)). lia.
Qed.

Lemma wrap_small z : in_range z -> wrap z = z.
Proof.
  unfold in_range, wrap, min_int, max_int. intros Hz.
  rewrite Z.mod_small; lia.
Qed.

Lemma wrap_idemp z : wrap (wrap z) = wrap z.
Proof. apply wrap_small, wrap_range. Qed.

Lemma wrap_add_l a b : wrap (wrap a + b) = wrap (a + b).
Proof.
  unfold wrap.
  replace ((a + 2 ^ 63) mod 2 ^ 64 - 2 ^ 63 + b + 2 ^ 63)
    with ((a + 2 ^ 63) mod 2 ^ 64 + b) by lia.
  rewrite Zplus_mod_idemp_l. f_equal. f_equal. lia.
Qed.

Lemma wrap_add_r a b : wrap (a + wrap b) = wrap (a + b).
Proof. rewrite (Z.add_comm a), wrap_add_l. f_equal. lia. Qed.

Lemma wrap_sub_l a b : wrap (wrap a - b) = wrap (a - b).
Proof. unfold Z.sub. apply wrap_add_l. Qed.

Lemma wrap_eq_mod a b : wrap a = wrap b <-> (a - b) mod 2 ^ 64 = 0.
Proof.
  unfold wrap. split; intros H.
  - assert (E : (a + 2 ^ 63) mod 2 ^ 64 = (b + 2 ^ 63) mod 2 ^ 64) by lia.
    replace (a - b) with ((a + 2 ^ 63) - (b + 2 ^ 63)) by lia.
    rewrite Zminus_mod, E, Z.sub_diag. reflexivity.
  - replace (a + 2 ^ 63) with ((a - b) + (b + 2 ^ 63)) by lia.
    rewrite Zplus_mod, H, Z.add_0_l, Z.mod_mod by lia. reflexivity.
Qed.

Lemma total_app l1 l2 : total (l1 ++ l2) = total l1 + total l2.
Proof. unfold total. induction l1; simpl; lia. Qed.

Lemma total_perm l1 l2 : l1 ≡ₚ l2 -> total l1 = total l2.
Proof. unfold total. induction 1; simpl; lia. Qed.

Lemma fold_add_total l a : wrap (fold_left add l a) = wrap (a + total l).
Proof.
  revert a. induction l as [|x l IH]; intros a; simpl.
  - f_equal. lia.
  - rewrite IH. unfold add. rewrite wrap_add_l. f_equal. lia.
Qed.

Lemma fold_add_range l a : in_range a -> in_range (fold_left add l a).
Proof.
  revert a. induction l as [|x l IH]; intros a Ha; simpl; [done|].
  apply IH, wrap_range.
Qed.

Lemma sum_total l : sum l = wrap (total l).
Proof.
  unfold sum. rewrite <- (wrap_small (fold_left add l 0)).
  - apply fold_add_total.
  - apply fold_add_range. unfold in_range, min_int, max_int. lia.
Qed.

Lemma fold_sub_total l a : wrap (fold_left sub l a) = wrap (a - total l).
Proof.
  revert a. induction l as [|x l IH]; intros a; simpl.
  - f_equal. lia.
  - rewrite IH. unfold sub. rewrite wrap_sub_l. f_equal. lia.
Qed.

Lemma fold_sub_range l a : in_range a -> in_range (fold_left sub l a).
Proof.
  revert a. induction l as [|x l IH]; intros a Ha; simpl; [done|].
  apply IH, wrap_range.
Qed.

Lemma sub_all_total l a : in_range a -> sub_all a l = wrap (a - total l).
Proof.
  intros Ha. unfold sub_all.
  rewrite <- (wrap_small (fold_left sub l a)) by by apply fold_sub_range.
  apply fold_sub_total.
Qed.

(** Subtracting every tally leaves zero exactly when the tallies add up,
    in [int64] arithmetic, to the counter they are subtracted from. *)
Lemma sub_all_zero l a : in_range a -> sub_all a l = 0 <-> sum l = a.
Proof.
  intros Ha. rewrite sub_all_total, sum_total by done.
  rewrite <- (wrap_small a) at 2 by done.
  change 0 with (wrap 0) at 1.
  rewrite !wrap_eq_mod.
  replace (a - total l - 0) with (- (total l - a)) by lia.
  rewrite !Z.mod_divide by lia. apply Z.divide_opp_r.
Qed.

Lemma sum_perm l1 l2 : l1 ≡ₚ l2 -> sum l1 = sum l2.
Proof. intros H. rewrite !sum_total. f_equal. by apply total_perm. Qed.

End Int64Facts.

(** ** [Generator] on its own *)

Section GenFacts.

Import Gen.

Lemma run_reach env evs g :
  reach evs g -> reach (evs ++ (run env g).2) (run env g).1.
Proof.
  revert evs g. induction env as [|d env IH]; intros evs g H; simpl.
  - by rewrite app_nil_r.
  - destruct (step d g) as [[g' e]|] eqn:E; simpl.
    + specialize (IH _ _ (reach_step _ _ _ _ _ H E)).
      destruct (run env g') as [g'' es]. simpl in *.
      by rewrite app_assoc.
    + by rewrite app_nil_r.
Qed.

Lemma value_succ n : Int64.add (value n) 1 = value (S n).
Proof.
  unfold value, Int64.add. rewrite wrap_add_l. f_equal. lia.
Qed.

Lemma value_exact n : Z.of_nat n <= Int64.max_int -> value n = Z.of_nat n.
Proof.
  intros H. apply wrap_small. unfold Int64.in_range, Int64.min_int in *. lia.
Qed.

Lemma gen_shape evs g : reach evs g -> exists n, shape n g evs.
Proof.
  induction 1 as [|evs g d g' e _ [n IH] Hstep].
  - exists O. by split.
  - destruct g; simpl in *; simplify_eq; try destruct IH as [-> ->]; subst.
    + exists n. rewrite app_nil_r. by destruct d.
    + exists n. done.
    + exists (S n). simpl. rewrite <- app_assoc. eauto.
    + destruct IH as (m & -> & -> & ->). exists (S m).
      rewrite app_nil_r, value_succ. done.
    + exists n. done.
Qed.

Lemma sent_app l1 l2 : sent (l1 ++ l2) = sent l1 ++ sent l2.
Proof. apply omap_app. Qed.

Lemma observed_app l1 l2 : observed (l1 ++ l2) = observed l1 ++ observed l2.
Proof. apply omap_app. Qed.

Lemma closes_app l1 l2 : closes (l1 ++ l2) = (closes l1 + closes l2)%nat.
Proof. unfold closes. by rewrite filter_app, length_app. Qed.

Lemma sent_rounds n : sent (rounds n) = value <$> seq 1 n.
Proof.
  induction n as [|n IH]; [done|].
  simpl rounds. rewrite sent_app, IH, seq_S, fmap_app. done.
Qed.

Lemma observed_rounds n : observed (rounds n) = value <$> seq 1 n.
Proof.
  induction n as [|n IH]; [done|].
  simpl rounds. rewrite observed_app, IH, seq_S, fmap_app. done.
Qed.

Lemma closes_rounds n : closes (rounds n) = O.
Proof.
  induction n as [|n IH]; [done|].
  simpl rounds. rewrite closes_app, IH. done.
Qed.

(** A [Sent] inside the rounds is followed by its [Observed]. *)
Lemma rounds_split_sent n t pre v post :
  rounds n ++ t = pre ++ Sent v :: post ->
  (exists post', post = Observed v :: post') \/
  (exists mid, pre = rounds n ++ mid /\ t = mid ++ Sent v :: post).
Proof.
  revert t. induction n as [|n IH]; intros t E.
  - right. exists pre. done.
  - simpl in E. rewrite <- app_assoc in E.
    destruct (IH _ E) as [?|(mid & -> & Et)]; [by left|].
    destruct mid as [|x [|y mid]]; simpl in Et; simplify_eq.
    + left. eauto.
    + right. exists mid. simpl. rewrite <- app_assoc. done.
Qed.

(** An [Observed] inside the rounds follows its [Sent]. *)
Lemma rounds_split_observed n t pre v post :
  rounds n ++ t = pre ++ Observed v :: post ->
  (exists pre', pre = pre' ++ [Sent v]) \/
  (exists mid, pre = rounds n ++ mid /\ t = mid ++ Observed v :: post).
Proof.
  revert t. induction n as [|n IH]; intros t E.
  - right. exists pre. done.
  - simpl in E. rewrite <- app_assoc in E.
    destruct (IH _ E) as [?|(mid & -> & Et)]; [by left|].
    destruct mid as [|x [|y mid]]; simpl in Et; simplify_eq.
    + left. eauto.
    + right. exists mid. simpl. rewrite <- app_assoc. done.
Qed.

Lemma run_start_reach env : reach (run env start).2 (run env start).1.
Proof. apply (run_reach env [] start), reach_start. Qed.

Lemma rounds_reach n : reach (rounds n) (GSelect (value (S n))).
Proof.
  induction n as [|n IH]; [apply reach_start|].
  pose proof (run_reach [false; false; false; false] _ _ IH) as H.
  simpl in H. by rewrite value_succ in H.
Qed.

Lemma rounds_split_closed n t pre post :
  rounds n ++ t = pre ++ Closed :: post ->
  exists mid, pre = rounds n ++ mid /\ t = mid ++ Closed :: post.
Proof.
  revert t. induction n as [|n IH]; intros t E.
  - exists pre. done.
  - simpl in E. rewrite <- app_assoc in E.
    destruct (IH _ E) as (mid & -> & Et).
    destruct mid as [|x [|y mid]]; simpl in Et; simplify_eq.
    exists mid. simpl. rewrite <- app_assoc. done.
Qed.

Lemma run_done g : (run [true; true; true; true; true] g).1 = GDone.
Proof. by destruct g. Qed.

Lemma run_done_closes g : g <> GDone ->
  closes (run [true; true; true; true; true] g).2 = 1%nat.
Proof. by destruct g. Qed.

(** C3: the [n]-th value written to the sink is [n], for every [n] an
    [int64] can hold (in general it is the counter after [n - 1]
    increments), so the values increase by one from 1; and a value that
    has been written is followed at once by the call of the observer on
    that value, or the generator stands at that call. *)
Theorem generator_sends_1_2_3 evs g :
  reach evs g ->
  (forall n v, sent evs !! n = Some v -> v = value (S n)) /\
  (forall n v, Z.of_nat (S n) <= Int64.max_int ->
     sent evs !! n = Some v -> v = Z.of_nat (S n)) /\
  (forall pre v post, evs = pre ++ Sent v :: post ->
     (post = [] /\ g = GCall v) \/ (exists post', post = Observed v :: post')).
Proof.
  intros [n Hs]%gen_shape.
  assert (Hsent : exists m, sent evs = value <$> seq 1 m).
  { destruct g; simpl in Hs;
      repeat match goal with
        | H : _ /\ _ |- _ => destruct H
        | H : exists _, _ |- _ => destruct H
        end; subst;
      rewrite ?sent_app, ?sent_rounds;
      first [ by eexists
            | by exists n; apply app_nil_r
            | by exists (S n); rewrite seq_S, fmap_app ]. }
  destruct Hsent as [m Hm].
  assert (Hnth : forall k v, sent evs !! k = Some v -> v = value (S k)).
  { intros k v. rewrite Hm, list_lookup_fmap.
    destruct (seq 1 m !! k) as [j|] eqn:E; [|done].
    apply lookup_seq in E as [-> _]. simpl. congruence. }
  split; [done|]. split.
  { intros k v Hk Hv. rewrite (Hnth _ _ Hv). by apply value_exact. }
  intros pre v post E.
  assert (Ht : exists t, evs = rounds n ++ t /\
                 (t = [] \/ (exists i, t = [Sent i] /\ g = GCall i) \/ t = [Closed])).
  { destruct g; simpl in Hs;
      repeat match goal with
        | H : _ /\ _ |- _ => destruct H
        | H : exists _, _ |- _ => destruct H
        end; subst; eauto 10 using app_nil_r.
    all: eexists []; rewrite app_nil_r; eauto. }
  destruct Ht as (t & -> & Ht).
  destruct (rounds_split_sent _ _ _ _ _ E) as [?|(mid & -> & Et)]; [by right|].
  destruct Ht as [->|[(i & -> & ->)| ->]].
  - by destruct mid.
  - destruct mid as [|? [|]]; simpl in Et; simplify_eq. by left.
  - destruct mid as [|? [|]]; simpl in Et; simplify_eq.
Qed.

Lemma generator_sends_1_2_3_witness :
  reach [Sent 1; Observed 1; Sent 2] (GCall 2) /\
  (forall n v, sent [Sent 1; Observed 1; Sent 2] !! n = Some v ->
     v = value (S n)) /\
  (forall n v, Z.of_nat (S n) <= Int64.max_int ->
     sent [Sent 1; Observed 1; Sent 2] !! n = Some v -> v = Z.of_nat (S n)) /\
  (forall pre v post, [Sent 1; Observed 1; Sent 2] = pre ++ Sent v :: post ->
     (post = [] /\ GCall 2 = GCall v) \/
     (exists post', post = Observed v :: post')).
Proof.
  assert (H : reach [Sent 1; Observed 1; Sent 2] (GCall 2))
    by exact (run_start_reach [false; false; false; false; false; false]).
  split; [exact H|]. exact (generator_sends_1_2_3 _ _ H).
Defined.

(** C4: the sink is closed at most once, and once exactly when the
    generator has returned, which it does whenever the cancellation is
    seen; nothing happens after the close.  Every call of the observer
    comes right after the delivery of the same value, and the values
    delivered are the values observed, plus the one whose call is due. *)
Theorem generator_closes_once_observes_each evs g :
  reach evs g ->
  (closes evs <= 1)%nat /\
  (closes evs = 1%nat <-> g = GDone) /\
  (forall pre post, evs = pre ++ Closed :: post -> post = []) /\
  (run [true; true; true; true; true] g).1 = GDone /\
  closes (evs ++ (run [true; true; true; true; true] g).2) = 1%nat /\
  (forall pre v post, evs = pre ++ Observed v :: post ->
     exists pre', pre = pre' ++ [Sent v]) /\
  sent evs = observed evs ++ match g with GCall i => [i] | _ => [] end.
Proof.
  intros [n Hs]%gen_shape.
  assert (Ht : exists t, evs = rounds n ++ t /\
            ((t = [] /\ g <> GDone /\ forall i, g <> GCall i) \/
             (exists i, t = [Sent i] /\ g = GCall i) \/
             (t = [Closed] /\ g = GDone))).
  { destruct g; simpl in Hs;
      repeat match goal with
        | H : _ /\ _ |- _ => destruct H
        | H : exists _, _ |- _ => destruct H
        end; subst; eauto 10 using app_nil_r.
    all: eexists []; rewrite app_nil_r; eauto 10. }
  clear Hs. destruct Ht as (t & -> & Ht).
  assert (Hc : closes (rounds n ++ t) = closes t)
    by by rewrite closes_app, closes_rounds.
  repeat split.
  - rewrite Hc.
    destruct Ht as [(-> & _)|[(i & -> & _)|(-> & _)]]; vm_compute; lia.
  - rewrite Hc.
    destruct Ht as [(-> & _)|[(i & -> & ->)|(-> & ->)]]; vm_compute; done.
  - rewrite Hc.
    destruct Ht as [(-> & ? & _)|[(i & -> & ->)|(-> & ->)]]; done.
  - intros pre post E.
    destruct (rounds_split_closed _ _ _ _ E) as (mid & -> & Et).
    destruct Ht as [(-> & _)|[(i & -> & _)|(-> & _)]];
      destruct mid as [|? [|]]; simpl in Et; by simplify_eq.
  - apply run_done.
  - rewrite closes_app, Hc.
    destruct Ht as [(-> & ? & _)|[(i & -> & ->)|(-> & ->)]]; try done.
    by rewrite run_done_closes.
  - intros pre v post E.
    destruct (rounds_split_observed _ _ _ _ _ E) as [?|(mid & -> & Et)]; [done|].
    destruct Ht as [(-> & _)|[(i & -> & _)|(-> & _)]];
      destruct mid as [|? [|]]; simpl in Et; by simplify_eq.
  - rewrite sent_app, observed_app, sent_rounds, observed_rounds.
    destruct Ht as [(-> & ? & Hn)|[(i & -> & ->)|(-> & ->)]]; simpl;
      rewrite ?app_nil_r; try done.
    destruct g; rewrite ?app_nil_r; try done. by destruct (Hn i).
Qed.

Lemma generator_closes_once_observes_each_witness :
  reach [Sent 1; Observed 1; Closed] GDone /\
  closes [Sent 1; Observed 1; Closed] = 1%nat /\
  sent [Sent 1; Observed 1; Closed] = observed [Sent 1; Observed 1; Closed].
Proof.
  assert (H : reach [Sent 1; Observed 1; Closed] GDone)
    by exact (run_start_reach [false; false; false; false; true; true]).
  split; [exact H|].
  destruct (generator_closes_once_observes_each _ _ H)
    as (_ & Hc & _ & _ & _ & _ & Hs).
  split; [by apply Hc|]. by rewrite Hs, app_nil_r.
Defined.

End GenFacts.

(** ** [Worker] on its own *)

Section WorkerFacts.

Import Wk.

Lemma relay_app xs ys : relay (xs ++ ys) = relay xs ++ relay ys.
Proof. apply bind_app. Qed.

Lemma relay_snoc xs v : relay (xs ++ [v]) = relay xs ++ [Got v; Put v].
Proof. by rewrite relay_app. Qed.

Lemma got_app l1 l2 : got (l1 ++ l2) = got l1 ++ got l2.
Proof. apply omap_app. Qed.

Lemma put_app l1 l2 : put (l1 ++ l2) = put l1 ++ put l2.
Proof. apply omap_app. Qed.

Lemma wcloses_app l1 l2 : closes (l1 ++ l2) = (closes l1 + closes l2)%nat.
Proof. unfold closes. by rewrite filter_app, length_app. Qed.

Lemma got_relay xs : got (relay xs) = xs.
Proof.
  induction xs as [|x xs IH]; [done|].
  change (relay (x :: xs)) with ([Got x; Put x] ++ relay xs).
  rewrite got_app, IH. done.
Qed.

Lemma put_relay xs : put (relay xs) = xs.
Proof.
  induction xs as [|x xs IH]; [done|].
  change (relay (x :: xs)) with ([Got x; Put x] ++ relay xs).
  rewrite put_app, IH. done.
Qed.

Lemma closes_relay xs : closes (relay xs) = O.
Proof.
  induction xs as [|x xs IH]; [done|].
  change (relay (x :: xs)) with ([Got x; Put x] ++ relay xs).
  rewrite wcloses_app, IH. done.
Qed.

(** An event that does not occur in [body] lies behind it. *)
Lemma split_behind {A} (P : A -> Prop) (body t pre post : list A) x :
  Forall P body -> ~ P x -> body ++ t = pre ++ x :: post ->
  exists mid, pre = body ++ mid /\ t = mid ++ x :: post.
Proof.
  intros Hb Hx. revert pre. induction Hb as [|y body Hy _ IH]; intros pre E.
  - by exists pre.
  - destruct pre as [|z pre]; simpl in E; [by simplify_eq|].
    injection E as <- E.
    destruct (IH _ E) as (mid & -> & ->). by exists mid.
Qed.

Lemma relay_transfers xs : Forall transfers (relay xs).
Proof.
  induction xs as [|x xs IH]; [constructor|].
  change (relay (x :: xs)) with ([Got x; Put x] ++ relay xs).
  apply Forall_app. split; [|done]. by repeat constructor.
Qed.

Lemma wk_shape evs w : reach evs w -> exists xs, shape xs w evs.
Proof.
  induction 1 as [|evs w inp w' e _ [xs IH] Hstep].
  - by exists [].
  - destruct w; simpl in *.
    + destruct inp; simplify_eq.
      * exists (xs ++ [v]). by exists xs.
      * by exists xs.
    + simplify_eq. destruct IH as (xs' & -> & ->). exists (xs' ++ [v]).
      simpl. by rewrite relay_snoc, <- app_assoc.
    + simplify_eq. exists xs. by rewrite app_nil_r.
    + simplify_eq. exists xs. by rewrite <- app_assoc.
    + done.
Qed.

Lemma feed_reach fuel xs evs w :
  reach evs w -> reach (evs ++ (feed fuel xs w).2) (feed fuel xs w).1.
Proof.
  revert xs evs w. induction fuel as [|fuel IH]; intros xs evs w H; simpl.
  - by rewrite app_nil_r.
  - destruct (match w, xs with
              | WRecv, x :: xs' => (Value x, xs')
              | _, _ => (EndOfStream, xs)
              end) as [inp xs'].
    destruct (step inp w) as [[w' e]|] eqn:E; simpl.
    + specialize (IH xs' _ _ (reach_step _ _ _ _ _ H E)).
      destruct (feed fuel xs' w') as [w'' es]. simpl in *.
      by rewrite app_assoc.
    + by rewrite app_nil_r.
Qed.

Lemma feed_done fuel xs : feed fuel xs WDone = (WDone, []).
Proof. by destruct fuel. Qed.

Lemma feed_all xs fuel :
  (3 * length xs + 2 <= fuel)%nat ->
  feed fuel xs start = (WDone, relay xs ++ [Eof; Closed]).
Proof.
  revert fuel. induction xs as [|x xs IH]; intros fuel Hf.
  - destruct fuel as [|[|fuel]]; simpl in Hf; try lia.
    simpl. by rewrite feed_done.
  - destruct fuel as [|[|[|fuel]]]; simpl in Hf; try lia.
    specialize (IH fuel ltac:(lia)). unfold start in *.
    cbn [feed step]. rewrite IH. done.
Qed.

Lemma step_eof inp w w' e :
  step inp w = Some (w', e) -> Eof ∈ e -> inp = EndOfStream /\ w = WRecv.
Proof.
  destruct w, inp; simpl; intros; simplify_eq; try done;
    repeat match goal with H : _ ∈ _ |- _ => inversion H; clear H; subst end.
Qed.

Lemma wk_tail evs w :
  reach evs w ->
  exists xs t, evs = relay xs ++ t /\
    ((t = [] /\ (w = WRecv \/ w = WSleep)) \/
     (exists v, t = [Got v] /\ w = WSend v) \/
     (t = [Eof] /\ w = WClosing) \/
     (t = [Eof; Closed] /\ w = WDone)).
Proof.
  intros [xs Hs]%wk_shape. destruct w; simpl in Hs.
  - exists xs, []. rewrite app_nil_r. eauto 10.
  - destruct Hs as (xs' & -> & ->). exists xs', [Got v]. eauto 10.
  - exists xs, []. rewrite app_nil_r. eauto 10.
  - exists xs, [Eof]. eauto 10.
  - exists xs, [Eof; Closed]. eauto 10.
Qed.

(** C5: run on an input stream [xs] that is then closed, the worker
    returns having received and forwarded exactly [xs], in this order,
    and having closed its output once.  In every execution the values
    forwarded are the values received, in the order received, but for a
    value still held; the output is closed at most once, and the close
    is the last event and comes right after the input was found closed
    by a receive, with everything received before already forwarded. *)
Theorem worker_relays_in_order xs fuel evs w :
  (3 * length xs + 2 <= fuel)%nat ->
  reach evs w ->
  (exists out, feed fuel xs start = (WDone, out) /\
     got out = xs /\ put out = xs /\ closes out = 1%nat) /\
  got evs = put evs ++ held w /\
  (closes evs <= 1)%nat /\
  (closes evs = 1%nat <-> w = WDone) /\
  (forall pre post, evs = pre ++ Closed :: post ->
     post = [] /\ exists pre', pre = pre' ++ [Eof] /\ got pre' = put pre') /\
  (forall pre post, evs = pre ++ Eof :: post -> got post = [] /\ put post = []) /\
  (forall inp w0 w1 e, step inp w0 = Some (w1, e) -> Eof ∈ e ->
     inp = EndOfStream /\ w0 = WRecv).
Proof.
  intros Hfuel Hreach. split.
  { exists (relay xs ++ [Eof; Closed]). split; [by apply feed_all|].
    rewrite got_app, put_app, wcloses_app, got_relay, put_relay, closes_relay.
    rewrite !app_nil_r. done. }
  destruct (wk_tail _ _ Hreach) as (ys & t & -> & Ht).
  rewrite got_app, put_app, wcloses_app, got_relay, put_relay, closes_relay.
  repeat split.
  - destruct Ht as [(-> & [-> | ->])|[(v & -> & ->)|[(-> & ->)|(-> & ->)]]];
      simpl; by rewrite ?app_nil_r.
  - destruct Ht as [(-> & _)|[(v & -> & _)|[(-> & _)|(-> & _)]]];
      vm_compute; lia.
  - destruct Ht as [(-> & [-> | ->])|[(v & -> & ->)|[(-> & ->)|(-> & ->)]]];
      vm_compute; done.
  - destruct Ht as [(-> & [-> | ->])|[(v & -> & ->)|[(-> & ->)|(-> & ->)]]];
      done.
  - destruct (split_behind transfers _ _ _ _ Closed (relay_transfers ys)
                ltac:(by intros [_ ?]) H) as (mid & -> & Et).
    destruct Ht as [(-> & _)|[(v & -> & _)|[(-> & _)|(-> & _)]]];
      destruct mid as [|? [|? [|]]]; simpl in Et; by simplify_eq.
  - destruct (split_behind transfers _ _ _ _ Closed (relay_transfers ys)
                ltac:(by intros [_ ?]) H) as (mid & -> & Et).
    destruct Ht as [(-> & _)|[(v & -> & _)|[(-> & _)|(-> & _)]]];
      destruct mid as [|? [|? [|]]]; simpl in Et; simplify_eq.
    exists (relay ys). by rewrite got_relay, put_relay.
  - destruct (split_behind transfers _ _ _ _ Eof (relay_transfers ys)
                ltac:(by intros [? _]) H) as (mid & -> & Et).
    destruct Ht as [(-> & _)|[(v & -> & _)|[(-> & _)|(-> & _)]]];
      destruct mid as [|? [|? [|]]]; simpl in Et; by simplify_eq.
  - destruct (split_behind transfers _ _ _ _ Eof (relay_transfers ys)
                ltac:(by intros [? _]) H) as (mid & -> & Et).
    destruct Ht as [(-> & _)|[(v & -> & _)|[(-> & _)|(-> & _)]]];
      destruct mid as [|? [|? [|]]]; simpl in Et; by simplify_eq.
  - eapply step_eof; eauto.
  - eapply step_eof; eauto.
Qed.

Lemma worker_relays_in_order_witness :
  (3 * length [7; 7; 3] + 2 <= 11)%nat /\
  reach [Got 7; Put 7; Got 7] (WSend 7) /\
  (exists out, feed 11 [7; 7; 3] start = (WDone, out) /\
     got out = [7; 7; 3] /\ put out = [7; 7; 3] /\ closes out = 1%nat) /\
  got [Got 7; Put 7; Got 7] = put [Got 7; Put 7; Got 7] ++ held (WSend 7).
Proof.
  assert (H1 : (3 * length [7; 7; 3] + 2 <= 11)%nat) by (simpl; lia).
  assert (H2 : reach [Got 7; Put 7; Got 7] (WSend 7))
    by exact (feed_reach 4 [7; 7; 3] [] start reach_start).
  split; [exact H1|]. split; [exact H2|].
  destruct (worker_relays_in_order [7; 7; 3] 11 _ _ H1 H2) as (Hf & Hg & _).
  split; [exact Hf|exact Hg].
Defined.

End WorkerFacts.

(** ** The checks of [main] *)

Section VerifierFacts.

Import Verifier Pipeline.

Lemma verify_cases inputSum sum inputCount count amounts :
  verify inputSum sum inputCount count amounts =
    if negb (inputSum =? sum) then ([SumMismatch inputSum sum], None)
    else if negb (inputCount =? count)
    then ([CountMismatch inputCount count], None)
    else if negb (Int64.sub_all inputCount amounts =? 0)
    then ([TallyMismatch], None)
    else ([], Some (Int64.sub_all inputCount amounts)).
Proof.
  unfold verify, when, bind, fatalf, ret.
  destruct (inputSum =? sum), (inputCount =? count),
    (Int64.sub_all inputCount amounts =? 0); reflexivity.
Qed.

Lemma fatals_app l1 l2 : fatals (l1 ++ l2) = fatals l1 ++ fatals l2.
Proof. apply omap_app. Qed.

Lemma fatals_fmap ds : fatals (EvFatal <$> ds) = ds.
Proof. induction ds as [|d ds IH]; [done|]. simpl. f_equal. exact IH. Qed.

Lemma step_verify n s :
  mn s = MVerify -> crashed s = false ->
  step n AMain s =
    match verify (inputSum s) (sum s) (inputCount s) (count s)
            (amount <$> lanes s) with
    | (ds, Some rest) =>
        Some (set_inputCount rest (set_mn MExit s), (EvFatal <$> ds) ++ [EvExit])
    | (ds, None) => Some (set_mn MFatal s, EvFatal <$> ds)
    end.
Proof.
  intros Hm Hc. unfold step, halted, step_main. by rewrite Hm, Hc.
Qed.

Lemma step_halted n a s : halted s = true -> step n a s = None.
Proof. intros H. unfold step. by rewrite H. Qed.

(** C7: the checks compare the two sums, the two counts, and the tallies
    with the generated count (their [int64] sum equals it exactly when
    subtracting them one by one leaves zero).  The process exits through
    [log.Fatalf], with one diagnostic, exactly when one of the three
    comparisons fails; when all three hold [main] returns and nothing is
    reported. *)
Theorem verifier_fatal_iff_mismatch n s :
  mn s = MVerify -> crashed s = false -> Int64.in_range (inputCount s) ->
  let mismatch :=
    inputCount s <> count s \/ inputSum s <> sum s \/
    Int64.sum (amount <$> lanes s) <> inputCount s in
  exists s' e,
    step n AMain s = Some (s', e) /\
    (mn s' = MFatal <-> mismatch) /\
    (mn s' = MExit <-> ~ mismatch) /\
    (mismatch -> exists d, e = [EvFatal d]) /\
    (~ mismatch -> e = [EvExit]) /\
    (forall a, step n a s' = None).
Proof.
  intros Hm Hc Hr mismatch. subst mismatch.
  rewrite step_verify, verify_cases by done.
  pose proof (sub_all_zero (amount <$> lanes s) _ Hr) as Hz.
  destruct (Z.eqb_spec (inputSum s) (sum s)) as [Es|Es]; simpl;
    [destruct (Z.eqb_spec (inputCount s) (count s)) as [Ec|Ec]; simpl;
     [destruct (Z.eqb_spec (Int64.sub_all (inputCount s) (amount <$> lanes s)) 0)
        as [Et|Et]; simpl|]|];
    eexists _, _; (split; [reflexivity|]); simpl;
    (repeat split; try done; try tauto; eauto;
     try (intros a; apply step_halted; unfold halted; simpl;
          by rewrite orb_true_r)).
  all: try (intros _; right; right; tauto).
  all: try (intros [?|[?|?]]; tauto).
  all: try (intros H; exfalso; apply H; tauto).
Qed.

Lemma verifier_fatal_iff_mismatch_witness :
  exists s' e,
    step 5 AMain (set_mn MVerify (set_sum 7 (init 5))) = Some (s', e) /\
    mn s' = MFatal /\ e = [EvFatal (SumMismatch 0 7)].
Proof.
  destruct (verifier_fatal_iff_mismatch 5 (set_mn MVerify (set_sum 7 (init 5))))
    as (s' & e & Hs & Hf & _ & He & _).
  - reflexivity.
  - reflexivity.
  - vm_compute. split; discriminate.
  - exists s', e. split; [exact Hs|].
    simpl in Hs. injection Hs as <- <-. split; reflexivity.
Defined.

(** C10: the sums are compared first, then the counts, then the
    remainder of the generated count after every tally has been
    subtracted from it; the first comparison that fails writes its
    diagnostic and ends the process, so that at most one diagnostic is
    written whatever the values are. *)
Theorem verifier_stops_at_first_failure inputSum sum inputCount count amounts n s :
  let r := verify inputSum sum inputCount count amounts in
  let rest := fold_left (fun a v => Int64.wrap (a - v)) amounts inputCount in
  (length r.1 <= 1)%nat /\
  (inputSum <> sum -> r = ([SumMismatch inputSum sum], None)) /\
  (inputSum = sum -> inputCount <> count ->
     r = ([CountMismatch inputCount count], None)) /\
  (inputSum = sum -> inputCount = count -> rest <> 0 ->
     r = ([TallyMismatch], None)) /\
  (inputSum = sum -> inputCount = count -> rest = 0 -> r = ([], Some 0)) /\
  (mn s = MVerify -> crashed s = false ->
     exists s' e, step n AMain s = Some (s', e) /\
       (length (fatals e) <= 1)%nat /\ forall a, step n a s' = None).
Proof.
  intros r rest. subst r.
  change rest with (Int64.sub_all inputCount amounts). clear rest.
  rewrite verify_cases.
  repeat split.
  - repeat case_match; simpl; lia.
  - intros H. by apply Z.eqb_neq in H as ->.
  - intros -> H. rewrite Z.eqb_refl. by apply Z.eqb_neq in H as ->.
  - intros -> -> H. rewrite !Z.eqb_refl. by apply Z.eqb_neq in H as ->.
  - intros -> -> H. by rewrite !Z.eqb_refl, H.
  - intros Hm Hc. rewrite step_verify, verify_cases by done.
    repeat case_match; simplify_eq; eexists _, _;
      (split; [reflexivity|]);
      (split;
       [rewrite ?fatals_app, ?fatals_fmap; simpl; lia
       |intros a; apply step_halted; unfold halted; simpl;
        by rewrite orb_true_r]).
Qed.

End VerifierFacts.

(** ** The program *)

Import Gen Wk Verifier Pipeline.

Local Close Scope Z_scope.

(** *** Lists, traces and proof automation *)

Section ListFacts.
Context {A : Type}.

Lemma sum_list_with_insert (f : A -> nat) l k x y :
  l !! k = Some x ->
  (sum_list_with f (<[k:=y]> l) + f x = sum_list_with f l + f y)%nat.
Proof.
  revert k. induction l as [|a l IH]; intros [|k] H; simplify_eq/=; [lia|].
  specialize (IH _ H). lia.
Qed.

Lemma sum_list_with_lookup (f : A -> nat) l k x :
  l !! k = Some x -> (f x <= sum_list_with f l)%nat.
Proof.
  revert k. induction l as [|a l IH]; intros [|k] H; simplify_eq/=; [lia|].
  specialize (IH _ H). lia.
Qed.

Lemma total_fmap_insert (f : A -> Z) l k x y :
  l !! k = Some x ->
  (Int64.total (f <$> <[k:=y]> l) + f x = Int64.total (f <$> l) + f y)%Z.
Proof.
  revert k. induction l as [|a l IH]; intros [|k] H; simplify_eq/=; [lia|].
  specialize (IH _ H). unfold Int64.total in *. simpl. lia.
Qed.

Lemma bind_insert_perm {B} (f : A -> list B) l k x y :
  l !! k = Some x ->
  (<[k:=y]> l ≫= f) ++ f x ≡ₚ (l ≫= f) ++ f y.
Proof.
  revert k. induction l as [|a l IH]; intros [|k] H; simplify_eq/=.
  - solve_Permutation.
  - rewrite <- !app_assoc. f_equiv. by apply IH.
Qed.

End ListFacts.

Ltac step_inv H :=
  unfold step in H;
  destruct (halted _) eqn:Hhalt; [discriminate|];
  match type of H with
  | match ?a with _ => _ end = _ => destruct a
  end;
  unfold step_timer, step_gen, step_worker, step_collector, step_closer,
    step_main, panic in H;
  repeat (simplify_option_eq || case_match);
  simplify_eq.

Ltac lit := simpl in *; first [done | congruence | lia].
Ltac holds A := assert A by lit.
Ltac fails A := assert (~ A) by (intro; lit).

(* forward chaining over the equivalences and implications at hand *)
Ltac chain :=
  repeat match goal with
  | H : ?A <-> ?B |- _ =>
      first
        [ holds A; first [holds B; clear H | (assert B by (apply H; assumption)); clear H]
        | holds B; (assert A by (apply H; assumption)); clear H
        | fails A; first [fails B; clear H | (assert (~ B) by (rewrite <- H; assumption)); clear H]
        | fails B; (assert (~ A) by (rewrite H; assumption)); clear H
        | change (kept (A <-> B)) in H ]
  | H : ?A -> ?C |- _ =>
      lazymatch A with _ \/ _ => fail | _ => idtac end;
      lazymatch C with False => fail | _ => idtac end;
      lazymatch type of A with Prop => idtac end;
      first
        [ holds C; clear H
        | holds A; (assert C by (apply H; assumption)); clear H
        | fails C; (assert (~ A) by (let X := fresh in intro X; apply H in X; lit));
          clear H
        | change (kept (A -> C)) in H ]
  | H : ?A \/ ?B -> ?C |- _ =>
      first
        [ holds C; clear H
        | holds A; (assert C by (apply H; left; assumption)); clear H
        | holds B; (assert C by (apply H; right; assumption)); clear H
        | fails C;
          (assert (~ A) by (let X := fresh in
                            intro X; apply (or_introl (B:=B)), H in X; lit));
          (assert (~ B) by (let X := fresh in
                            intro X; apply (or_intror (A:=A)), H in X; lit));
          clear H
        | change (kept (A \/ B -> C)) in H ]
  end;
  unfold kept in *.

Ltac lane_facts Hlane :=
  repeat match goal with
  | Hk : lanes ?s !! ?k = Some ?ln |- _ =>
      lazymatch goal with
      | _ : lane_ok _ _ _ k ln |- _ => fail
      | _ => pose proof (Hlane _ _ Hk)
      end
  end.


Ltac norm :=
  repeat match goal with
  | H : ?p ?s = _ |- _ => is_var s; rewrite H in *
  end; simpl in *.

Ltac arith :=
  repeat match goal with
  | H : (_ <? _)%nat = true |- _ => apply Nat.ltb_lt in H
  | H : (_ <? _)%nat = false |- _ => apply Nat.ltb_ge in H
  end.

Ltac close_goal :=
  first
    [ lit
    | split; intros; lit
    | split; [intros; lit | intros [?|?]; lit]
    | intros [?|?]; lit
    | intros; lit
    | match goal with H : ?A <-> _ |- ?A <-> _ => rewrite H; lit end ].

Section TraceFacts.

Lemma gen_events_app t1 t2 : gen_events (t1 ++ t2) = gen_events t1 ++ gen_events t2.
Proof. apply omap_app. Qed.
Lemma worker_events_app k t1 t2 :
  worker_events k (t1 ++ t2) = worker_events k t1 ++ worker_events k t2.
Proof. apply omap_app. Qed.
Lemma received_app t1 t2 : received (t1 ++ t2) = received t1 ++ received t2.
Proof. apply omap_app. Qed.
Lemma tallied_app t1 t2 : tallied (t1 ++ t2) = tallied t1 ++ tallied t2.
Proof. apply omap_app. Qed.
Lemma done_signals_app t1 t2 :
  done_signals (t1 ++ t2) = done_signals t1 ++ done_signals t2.
Proof. apply omap_app. Qed.
Lemma tr_sent_app t1 t2 : Pipeline.sent (t1 ++ t2) = Pipeline.sent t1 ++ Pipeline.sent t2.
Proof. unfold Pipeline.sent. by rewrite gen_events_app, sent_app. Qed.
Lemma tr_observed_app t1 t2 :
  Pipeline.observed (t1 ++ t2) = Pipeline.observed t1 ++ Pipeline.observed t2.
Proof. unfold Pipeline.observed. by rewrite gen_events_app, observed_app. Qed.

Lemma occ_app {A} `{EqDecision A} (v : A) l1 l2 :
  occ v (l1 ++ l2) = (occ v l1 + occ v l2)%nat.
Proof. unfold occ. by rewrite filter_app, length_app. Qed.
Lemma occ_nil {A} `{EqDecision A} (v : A) : occ v [] = O.
Proof. done. Qed.
Lemma occ_cons {A} `{EqDecision A} (v x : A) l :
  occ v (x :: l) = ((if decide (x = v) then 1 else 0) + occ v l)%nat.
Proof. unfold occ. rewrite filter_cons. by destruct (decide (x = v)). Qed.

Lemma sum_snoc l x : Int64.sum (l ++ [x]) = Int64.add (Int64.sum l) x.
Proof. unfold Int64.sum. by rewrite fold_left_app. Qed.

End TraceFacts.

#[export] Hint Rewrite gen_events_app worker_events_app received_app tallied_app
  done_signals_app tr_sent_app tr_observed_app @occ_app @occ_nil @occ_cons
  @length_app @app_nil_r : trace.

Local Open Scope Z_scope.

Lemma wrap_sub_r a b : Int64.wrap (a - Int64.wrap b) = Int64.wrap (a - b).
Proof.
  apply wrap_eq_mod.
  replace (a - Int64.wrap b - (a - b)) with (- (Int64.wrap b - b)) by lia.
  pose proof (proj1 (wrap_eq_mod (Int64.wrap b) b) (wrap_idemp b)) as H.
  apply Z.mod_divide in H; [|lia]. apply Z.mod_divide; [lia|].
  by apply Z.divide_opp_r.
Qed.

Lemma total_snoc l x : Int64.total (l ++ [x]) = Int64.total l + x.
Proof. rewrite total_app. unfold Int64.total. simpl. lia. Qed.

(* equalities between stored results *)
Ltac wrap_eq :=
  unfold Int64.add, Int64.sub;
  rewrite ?wrap_add_l, ?wrap_add_r, ?wrap_sub_l, ?wrap_sub_r;
  first [done | f_equal; lia].

Local Close Scope Z_scope.

Lemma gen_events_fatal l : gen_events (EvFatal <$> l) = [].
Proof. induction l; [done|]. simpl. done. Qed.
Lemma worker_events_fatal k l : worker_events k (EvFatal <$> l) = [].
Proof. induction l; [done|]. simpl. done. Qed.
Lemma received_fatal l : received (EvFatal <$> l) = [].
Proof. induction l; [done|]. simpl. done. Qed.
Lemma tallied_fatal l : tallied (EvFatal <$> l) = [].
Proof. induction l; [done|]. simpl. done. Qed.
Lemma done_signals_fatal l : done_signals (EvFatal <$> l) = [].
Proof. induction l; [done|]. simpl. done. Qed.

#[export] Hint Rewrite sent_app observed_app gen_events_fatal worker_events_fatal
  received_fatal tallied_fatal done_signals_fatal total_snoc : trace.

(** *** The control state is an invariant *)

Ltac sk_lane Hlane :=
  let k' := fresh "k'" in
  let ln' := fresh "ln'" in
  let Hl' := fresh "Hl'" in
  intros k' ln' Hl';
  first
    [ apply list_lookup_insert_Some in Hl' as [(<- & <- & ?)|(? & Hl')];
      [|destruct (Hlane _ _ Hl')]
    | destruct (Hlane _ _ Hl') ];
  constructor; simpl; norm; close_goal.

Lemma skeleton_step n s a s' e : skeleton n s -> step n a s = Some (s', e) -> skeleton n s'.
Proof.
  intros Hsk Hstep. step_inv Hstep.
  all: destruct Hsk as [Hcr Hlen Hmn Hgen Hin Hlane Hwg Hcl Hclosing Hres Hdr Hemp].
  all: unfold halted in Hhalt; rewrite Hcr in Hhalt; simpl in Hhalt.
  all: lane_facts Hlane.
  all: try match goal with
       | Hk : lanes ?s !! ?k = Some ?ln |- context [set_lane ?k ?new _] =>
           let H := fresh in
           pose proof (sum_list_with_insert active _ _ _ new Hk) as H;
           unfold active at 2 4 in H
       end.
  all: try match goal with
       | Hk : lanes ?s !! ?k = Some ?ln |- _ =>
           let H := fresh in
           pose proof (sum_list_with_lookup active _ _ _ Hk) as H;
           unfold active at 1 in H
       end.
  all: repeat match goal with H : lane_ok _ _ _ _ _ |- _ => destruct H end.
  all: arith; norm; chain.
  all: try lit.
  all: constructor; simpl; rewrite ?length_insert; norm; try close_goal.
  all: try sk_lane Hlane.
Qed.

(** *** The ledger is an invariant *)

Ltac split_lane Hl' :=
  first
    [ apply list_lookup_insert_Some in Hl' as [(<- & <- & ?)|(? & Hl')]
    | idtac ].

Ltac t_gen s :=
  first
    [ assumption
    | apply Gen.reach_start
    | eapply (Gen.reach_step _ _ (cancelled s)); [eassumption|norm; reflexivity]
    | rewrite <- (app_nil_r (gen_events _));
      eapply (Gen.reach_step _ _ (cancelled s)); [eassumption|norm; reflexivity] ].

Ltac t_wk :=
  first
    [ assumption
    | apply Wk.reach_start
    | eapply (Wk.reach_step _ _ EndOfStream); [eassumption|reflexivity]
    | eapply (Wk.reach_step _ _ (Value _)); [eassumption|reflexivity]
    | rewrite <- (app_nil_r (worker_events _ _));
      eapply (Wk.reach_step _ _ EndOfStream); [eassumption|reflexivity] ].

Ltac t_lane Hwk Ham :=
  let k' := fresh "k'" in
  let ln' := fresh "ln'" in
  let Hl' := fresh "Hl'" in
  intros k' ln' Hl'; split_lane Hl';
  try (pose proof (Hwk _ _ Hl')); try (pose proof (Ham _ _ Hl'));
  autorewrite with trace; simpl; repeat case_decide; simplify_eq;
  autorewrite with trace; simpl; norm;
  first [done | t_wk | wrap_eq].

Ltac t_flow Hflow :=
  let v := fresh "v" in
  intros v; specialize (Hflow v);
  try match goal with
  | Hk : lanes ?s !! ?k = Some ?ln |- context [<[?k:=?new]> (lanes ?s)] =>
      let H := fresh in
      pose proof (sum_list_with_insert (fun ln => occ v (lane_held ln))
                    _ _ _ new Hk) as H;
      cbv beta in H; unfold lane_held at 2 4 in H
  end;
  norm; autorewrite with trace in *; simpl in *; norm;
  autorewrite with trace in *; repeat case_decide; lia.

Ltac t_tallied :=
  try match goal with
  | Hk : lanes ?s !! ?k = Some ?ln |- context [<[?k:=?new]> (lanes ?s)] =>
      let H := fresh in
      pose proof (sum_list_with_insert publishing _ _ _ new Hk) as H;
      unfold publishing at 2 4 in H
  end;
  norm; norm; lia.

Lemma ledger_step n tr s a s' e :
  skeleton n s -> ledger n tr s -> step n a s = Some (s', e) -> ledger n (tr ++ e) s'.
Proof.
  intros Hsk Hlg Hstep.
  step_inv Hstep.
  all: destruct Hsk as [Hcr Hlen Hmn Hsgen Hin Hlane Hwg Hcl Hclosing Hres Hdr Hemp].
  all: lane_facts Hlane.
  all: repeat match goal with H : lane_ok _ _ _ _ _ |- _ => destruct H end.
  all: clear Hlane Hwg Hcl Hclosing Hres Hdr Hemp Hin.
  all: destruct Hlg as [Hgen Hwk Hsum Hcount Hflow Hacc Haccs Ham Htl Hidx].
  all: unfold halted in Hhalt; rewrite Hcr in Hhalt; simpl in Hhalt.
  all: assert (Hne : mn s <> MExit) by (by intros E; rewrite E in Hhalt).
  all: specialize (Hcount Hne).
  all: unfold in_callback, pending, Pipeline.sent, Pipeline.observed in *.
  all: try match goal with
       | Hk : lanes ?s !! ?k = Some ?ln |- _ =>
           pose proof (Hwk _ _ Hk); pose proof (Ham _ _ Hk);
           pose proof (lookup_lt_Some _ _ _ Hk)
       end.
  all: arith; norm; chain.
  all: try lit.
  all: constructor; simpl;
       unfold in_callback, pending, Pipeline.sent, Pipeline.observed; simpl.
  all: autorewrite with trace; simpl; autorewrite with trace.
  all: norm.
  all: try assumption.
  all: try (t_gen s).
  all: try (intros; wrap_eq).
  all: try (t_lane Hwk Ham).
  all: try (rewrite sum_snoc; wrap_eq).
  all: try (apply Forall_app; split; [assumption|]; apply Forall_singleton; lia).
  all: try t_tallied.
  all: try (t_flow Hflow).
Qed.

(** *** Reachable states *)

Lemma sum_list_with_replicate {A} (f : A -> nat) m x :
  sum_list_with f (replicate m x) = (m * f x)%nat.
Proof. induction m as [|m IH]; simpl; lia. Qed.

Lemma sum_list_with_zero {A} (f : A -> nat) l k x :
  sum_list_with f l = O -> l !! k = Some x -> f x = O.
Proof.
  intros H Hk. pose proof (sum_list_with_lookup f _ _ _ Hk). lia.
Qed.

Lemma skeleton_init n : skeleton n (init n).
Proof.
  constructor; simpl; try done.
  - apply length_replicate.
  - intros k ln [-> Hk]%lookup_replicate. constructor; simpl; try done.
    all: first [by intros [|] | split; [lia|done]].
  - rewrite sum_list_with_replicate. unfold active. simpl. lia.
Qed.

Lemma ledger_init n : ledger n [] (init n).
Proof.
  constructor; simpl; try done.
  - by intros k ln [-> Hk]%lookup_replicate.
  - intros v. rewrite sum_list_with_replicate.
    unfold occ, lane_held. simpl. lia.
  - by intros k ln [-> Hk]%lookup_replicate.
  - rewrite sum_list_with_replicate. unfold publishing. simpl. lia.
Qed.

Lemma reach_skeleton n tr s : reach n tr s -> skeleton n s.
Proof.
  induction 1; [apply skeleton_init|]. by eapply skeleton_step.
Qed.

Lemma reach_ledger n tr s : reach n tr s -> ledger n tr s.
Proof.
  induction 1 as [|tr s a s' e Hr IH Hstep]; [apply ledger_init|].
  eapply ledger_step; eauto using reach_skeleton.
Qed.

(** Once [chOut] is closed every goroutine but [main] has finished. *)
Lemma closed_quiet n s :
  skeleton n s -> res_closed s = true ->
  forall k ln, lanes s !! k = Some ln ->
    wk ln = Some WDone /\ col ln = Some CDone /\ out_closed ln = true /\
    in_closed s = true /\ gen s = Some GDone.
Proof.
  intros [Hcr Hlen Hmn Hgen Hin Hlane Hwg Hcl Hclosing Hres Hdr Hemp] Hc k ln Hk.
  destruct (Hlane _ _ Hk) as [Hw Hco Hout Heof Hexit].
  apply Hres in Hc.
  assert (Hwg0 : wg s = O) by (apply Hclosing; by right).
  assert (Hact : active ln = O).
  { eapply (sum_list_with_zero active); [|exact Hk]. lia. }
  assert (Hns : ~ setting_up (mn s)) by (rewrite <- Hcl; congruence).
  assert (Hst : collectors_started n (mn s) = n)
    by (destruct (mn s); simpl in *; tauto).
  assert (Hcol : col ln = Some CDone).
  { pose proof (lookup_lt_Some _ _ _ Hk).
    unfold active in Hact. destruct (col ln) as [[]|]; try done.
    assert (collectors_started n (mn s) <= k)%nat by by apply Hco. lia. }
  assert (Ho : out_closed ln = true) by (apply Hexit; by right).
  assert (Hd : wk ln = Some WDone) by by apply Hout.
  assert (Hi : in_closed s = true) by (apply Heof; by right).
  repeat split; try done. by apply Hin.
Qed.

Lemma drained_quiet n s :
  (0 < n)%nat -> skeleton n s -> drained (mn s) ->
  gen s = Some GDone /\ in_closed s = true /\ res_closed s = true /\
  res_buf s = [] /\ pending s = [] /\ in_callback s = 0%Z /\
  forall k ln, lanes s !! k = Some ln ->
    wk ln = Some WDone /\ col ln = Some CDone /\ out_closed ln = true.
Proof.
  intros Hn Hsk Hd.
  pose proof (sk_drained _ _ Hsk Hd) as Hc.
  pose proof (sk_empty _ _ Hsk Hd) as He.
  pose proof (closed_quiet _ _ Hsk Hc) as Hq.
  destruct (lookup_lt_is_Some_2 (lanes s) 0) as [ln0 H0].
  { rewrite (sk_len _ _ Hsk). lia. }
  destruct (Hq _ _ H0) as (_ & _ & _ & Hi & Hg).
  repeat split; try done.
  - unfold pending. by destruct (mn s).
  - unfold in_callback. by rewrite Hg.
  - by eapply Hq.
  - by eapply Hq.
  - by eapply Hq.
Qed.

(** *** Counting *)

Local Open Scope Z_scope.

Lemma gen_observed_rounds evs g :
  Gen.reach evs g -> exists m, Gen.observed evs = value <$> seq 1 m.
Proof.
  intros [n Hs]%gen_shape.
  destruct g; simpl in Hs;
    repeat match goal with
      | H : _ /\ _ |- _ => destruct H
      | H : exists _, _ |- _ => destruct H
      end; subst;
    rewrite ?observed_app, ?observed_rounds;
    first [ by eexists | by exists n; apply app_nil_r ].
Qed.

Lemma gen_sent_observed evs g :
  Gen.reach evs g ->
  Gen.sent evs = Gen.observed evs ++ match g with GCall i => [i] | _ => [] end.
Proof.
  intros [n Hs]%gen_shape.
  destruct g; simpl in Hs;
    repeat match goal with
      | H : _ /\ _ |- _ => destruct H
      | H : exists _, _ |- _ => destruct H
      end; subst;
    rewrite ?sent_app, ?observed_app, ?sent_rounds, ?observed_rounds;
    simpl; by rewrite ?app_nil_r.
Qed.

Lemma wrap_total_fmap l : Int64.wrap (Int64.total (Int64.wrap <$> l)) = Int64.wrap (Int64.total l).
Proof.
  induction l as [|x l IH]; [done|].
  change (Int64.total (Int64.wrap <$> x :: l))
    with (Int64.wrap x + Int64.total (Int64.wrap <$> l)).
  change (Int64.total (x :: l)) with (x + Int64.total l).
  rewrite wrap_add_l, <- wrap_add_r, IH, wrap_add_r. done.
Qed.

Lemma total_seq n :
  2 * Int64.total (Z.of_nat <$> seq 1 n) = Z.of_nat n * (Z.of_nat n + 1).
Proof.
  induction n as [|n IH]; [done|].
  rewrite seq_S, fmap_app, total_app.
  change (Int64.total (Z.of_nat <$> [(1 + n)%nat])) with (Z.of_nat (S n) + 0).
  lia.
Qed.

Lemma triangle_seq n : Int64.total (Z.of_nat <$> seq 1 n) = Int64.triangle (Z.of_nat n).
Proof.
  unfold Int64.triangle. rewrite <- total_seq.
  rewrite Z.mul_comm, Z.div_mul; lia.
Qed.

Lemma sum_values n : Int64.sum (value <$> seq 1 n) = Int64.wrap (Int64.triangle (Z.of_nat n)).
Proof.
  rewrite sum_total, <- triangle_seq.
  unfold value.
  rewrite (list_fmap_compose Z.of_nat Int64.wrap).
  apply wrap_total_fmap.
Qed.

Lemma occ_count_occ {A} `{EqDecision A} (eq_dec : forall x y : A, {x = y} + {x <> y})
    (v : A) l :
  occ v l = count_occ eq_dec l v.
Proof.
  induction l as [|x l IH]; [done|].
  rewrite occ_cons, IH. simpl. destruct (eq_dec x v); case_decide; done.
Qed.

Lemma occ_perm {A} `{EqDecision A} (l1 l2 : list A) :
  (forall v, occ v l1 = occ v l2) -> l1 ≡ₚ l2.
Proof.
  intros H.
  apply (Permutation_count_occ (fun x y => decide (x = y))).
  intros v. by rewrite <- !occ_count_occ.
Qed.

Lemma occ_bind {A B} `{EqDecision B} (f : A -> list B) (v : B) l :
  occ v (l ≫= f) = sum_list_with (fun x => occ v (f x)) l.
Proof.
  induction l as [|x l IH]; [done|].
  change ((x :: l) ≫= f) with (f x ++ (l ≫= f)).
  rewrite occ_app, IH. done.
Qed.

Lemma sum_list_with_0 {A} (f : A -> nat) l :
  (forall k x, l !! k = Some x -> f x = O) -> sum_list_with f l = O.
Proof.
  induction l as [|a l IH]; intros H; [done|]. simpl.
  rewrite (H O a eq_refl), IH; [done|].
  intros k x Hk. apply (H (S k) x Hk).
Qed.

Lemma occ_length {A} `{EqDecision A} (v : A) l : (occ v l <= length l)%nat.
Proof. unfold occ. apply length_filter. Qed.

(** Indices below [n] are counted once by the counters [0 .. n-1]. *)
Lemma occ_indicator n (x : nat) :
  (x < n)%nat ->
  sum_list_with (fun k => if decide (x = k) then 1 else 0)%nat (seq 0 n) = 1%nat.
Proof.
  induction n as [|n IH]; intros Hx; [lia|].
  rewrite seq_S, sum_list_with_app. simpl.
  destruct (decide (x = n)) as [->|Hne].
  - rewrite sum_list_with_0; [lia|].
    intros k y [-> ?]%lookup_seq. case_decide; lia.
  - rewrite IH by lia. lia.
Qed.

Lemma occ_seq_total n (l : list nat) :
  Forall (fun k => (k < n)%nat) l ->
  sum_list_with (fun k => occ k l) (seq 0 n) = length l.
Proof.
  induction 1 as [|x l Hx _ IH]; simpl.
  - apply sum_list_with_0. intros. apply occ_nil.
  - rewrite <- IH. 
    transitivity
      (sum_list_with (fun k => if decide (x = k) then 1 else 0) (seq 0 n) +
       sum_list_with (fun k => occ k l) (seq 0 n))%nat;
      [|by rewrite occ_indicator].
    clear. induction (seq 0 n) as [|k ks IHk]; [done|].
    simpl. rewrite occ_cons, IHk. lia.
Qed.

(** *** Totals when [main] has left its loop *)

Lemma total_of_nat {A} (f : A -> nat) l :
  Int64.total ((fun x => Z.of_nat (f x)) <$> l) = Z.of_nat (sum_list_with f l).
Proof.
  induction l as [|x l IH]; [done|].
  change (Int64.total ((fun x => Z.of_nat (f x)) <$> x :: l))
    with (Z.of_nat (f x) + Int64.total ((fun x => Z.of_nat (f x)) <$> l)).
  rewrite IH. simpl. lia.
Qed.

Lemma amounts_by_index n tr s :
  skeleton n s -> ledger n tr s ->
  amount <$> lanes s =
    Int64.wrap <$> ((fun k => Z.of_nat (occ k (tallied tr))) <$> seq 0 n).
Proof.
  intros Hsk Hlg. apply list_eq. intros k.
  rewrite !list_lookup_fmap.
  destruct (lanes s !! k) as [ln|] eqn:Hk; simpl.
  - pose proof (lookup_lt_Some _ _ _ Hk) as Hlt.
    rewrite (sk_len _ _ Hsk) in Hlt.
    rewrite (lookup_seq_lt _ _ _ Hlt). simpl.
    by rewrite (lg_amount _ _ _ Hlg _ _ Hk).
  - apply lookup_ge_None in Hk. rewrite (sk_len _ _ Hsk) in Hk.
    by rewrite (lookup_seq_ge _ _ _ Hk).
Qed.

Lemma amounts_sum n tr s :
  skeleton n s -> ledger n tr s ->
  Int64.sum (amount <$> lanes s) = Int64.wrap (Z.of_nat (length (tallied tr))).
Proof.
  intros Hsk Hlg.
  rewrite sum_total, (amounts_by_index _ _ _ Hsk Hlg), wrap_total_fmap.
  rewrite total_of_nat, occ_seq_total; [done|]. apply (lg_index _ _ _ Hlg).
Qed.

Lemma amounts_exact n tr s :
  skeleton n s -> ledger n tr s ->
  Z.of_nat (length (tallied tr)) <= Int64.max_int ->
  Int64.total (amount <$> lanes s) = Z.of_nat (length (tallied tr)).
Proof.
  intros Hsk Hlg Hmax.
  rewrite (amounts_by_index _ _ _ Hsk Hlg).
  rewrite <- list_fmap_compose.
  rewrite <- (occ_seq_total n (tallied tr)) by apply (lg_index _ _ _ Hlg).
  rewrite <- total_of_nat. f_equal. apply list_fmap_ext.
  intros _ k _. simpl. apply wrap_small.
  pose proof (occ_length k (tallied tr)).
  unfold Int64.in_range, Int64.min_int, Int64.max_int in *. lia.
Qed.

Lemma flow_perm n tr s :
  ledger n tr s -> Pipeline.sent tr ≡ₚ received tr ++ in_flight s.
Proof.
  intros Hlg. apply occ_perm. intros v.
  rewrite (lg_flow _ _ _ Hlg v). unfold in_flight.
  rewrite !occ_app, occ_bind. lia.
Qed.

Lemma bind_nil_all {A B} (f : A -> list B) l :
  (forall k x, l !! k = Some x -> f x = []) -> l ≫= f = [].
Proof.
  induction l as [|a l IH]; intros H; [done|].
  change ((a :: l) ≫= f) with (f a ++ (l ≫= f)).
  rewrite (H O a eq_refl), IH; [done|].
  intros k x Hk. apply (H (S k) x Hk).
Qed.

Lemma drained_totals n tr s :
  (0 < n)%nat -> skeleton n s -> ledger n tr s -> drained (mn s) ->
  in_flight s = [] /\
  received tr ≡ₚ Pipeline.sent tr /\
  Pipeline.observed tr = Pipeline.sent tr /\
  count s = Int64.wrap (Z.of_nat (length (Pipeline.sent tr))) /\
  sum s = Int64.sum (Pipeline.sent tr) /\
  inputSum s = Int64.sum (Pipeline.sent tr) /\
  (mn s <> MExit ->
   inputCount s = Int64.wrap (Z.of_nat (length (Pipeline.sent tr)))) /\
  length (tallied tr) = length (Pipeline.sent tr).
Proof.
  intros Hn Hsk Hlg Hd.
  destruct (drained_quiet _ _ Hn Hsk Hd)
    as (Hg & Hi & Hc & Hb & Hp & Hcb & Hq).
  assert (Hfl : in_flight s = []).
  { unfold in_flight. rewrite Hb, app_nil_r.
    apply bind_nil_all. intros k ln Hk.
    destruct (Hq _ _ Hk) as (Hw & Hco & _).
    unfold lane_held. by rewrite Hw, Hco. }
  assert (Hperm : received tr ≡ₚ Pipeline.sent tr).
  { rewrite (flow_perm _ _ _ Hlg), Hfl, app_nil_r. done. }
  assert (Hobs : Pipeline.observed tr = Pipeline.sent tr).
  { pose proof (lg_gen _ _ _ Hlg) as Hr. rewrite Hg in Hr.
    unfold Pipeline.sent, Pipeline.observed.
    by rewrite (gen_sent_observed _ _ Hr), app_nil_r. }
  split; [done|]. split; [done|]. split; [done|].
  split.
  { rewrite (lg_acc_count _ _ _ Hlg), Hp, (Permutation_length Hperm).
    simpl. f_equal. lia. }
  split.
  { rewrite (lg_acc_sum _ _ _ Hlg), Hp, sum_total, (total_perm _ _ Hperm).
    f_equal. unfold Int64.total. simpl. lia. }
  split.
  { by rewrite (lg_sum _ _ _ Hlg), Hobs. }
  split.
  { intros Hne. rewrite (lg_count _ _ _ Hlg Hne), Hcb, Hobs. f_equal. lia. }
  rewrite (lg_tallied _ _ _ Hlg), Hb, (Permutation_length Hperm).
  rewrite sum_list_with_0; [simpl; lia|].
  intros k ln Hk. destruct (Hq _ _ Hk) as (_ & Hco & _).
  unfold publishing. by rewrite Hco.
Qed.

Local Close Scope Z_scope.

(** *** Closes, exits and reports *)

Lemma occ_fatal (x : event) l :
  (forall d, x <> EvFatal d) -> occ x (EvFatal <$> l) = O.
Proof.
  intros Hx. induction l as [|d l IH]; [done|].
  rewrite fmap_cons, occ_cons, IH. case_decide; [|done]. by destruct (Hx d).
Qed.

(** Once the closer is past [wg.Wait()] every collector, every worker and
    the generator have finished. *)
Lemma closing_quiet n s :
  skeleton n s -> closer s = Some ClClose \/ closer s = Some ClDone ->
  forall k ln, lanes s !! k = Some ln ->
    wk ln = Some WDone /\ col ln = Some CDone /\ out_closed ln = true /\
    in_closed s = true /\ gen s = Some GDone.
Proof.
  intros [Hcr Hlen Hmn Hgen Hin Hlane Hwg Hcl Hclosing Hres Hdr Hemp] Hc k ln Hk.
  destruct (Hlane _ _ Hk) as [Hw Hco Hout Heof Hexit].
  assert (Hwg0 : wg s = O) by by apply Hclosing.
  assert (Hact : active ln = O).
  { eapply (sum_list_with_zero active); [|exact Hk]. lia. }
  assert (Hns : ~ setting_up (mn s)).
  { rewrite <- Hcl. destruct Hc; congruence. }
  assert (Hst : collectors_started n (mn s) = n)
    by (destruct (mn s); simpl in *; tauto).
  assert (Hcol : col ln = Some CDone).
  { pose proof (lookup_lt_Some _ _ _ Hk).
    unfold active in Hact. destruct (col ln) as [[]|]; try done.
    assert (collectors_started n (mn s) <= k)%nat by by apply Hco. lia. }
  assert (Ho : out_closed ln = true) by (apply Hexit; by right).
  assert (Hd : wk ln = Some WDone) by by apply Hout.
  assert (Hi : in_closed s = true) by (apply Heof; by right).
  repeat split; try done. by apply Hin.
Qed.

(** Where an event of [tr ++ e] lies. *)
Lemma order_step {A} (P : list A -> Prop) (x : A) tr e :
  (forall pre post, tr = pre ++ x :: post -> P pre) ->
  (x ∈ e -> e = [x] /\ P tr) ->
  forall pre post, tr ++ e = pre ++ x :: post -> P pre.
Proof.
  intros IH He pre post E.
  apply app_eq_inv in E as [(mid & -> & E)|(mid & -> & E)].
  - destruct mid as [|y mid]; simpl in E.
    + subst e. destruct He as [_ Hp]; [by left|].
      by rewrite app_nil_r in Hp.
    + injection E as -> ->. by apply (IH pre mid).
  - assert (Hx : x ∈ e) by (rewrite E, elem_of_app; right; by left).
    destruct (He Hx) as [-> Hp].
    destruct mid as [|? [|]]; simplify_eq/=. by rewrite app_nil_r.
Qed.

#[export] Hint Rewrite fatals_app fatals_fmap : trace.

Lemma drained_checks n tr s :
  (0 < n)%nat -> skeleton n s -> ledger n tr s ->
  mn s = MReport \/ mn s = MVerify ->
  inputSum s = sum s /\ inputCount s = count s /\
  Int64.sum (amount <$> lanes s) = count s /\
  Int64.sub_all (inputCount s) (amount <$> lanes s) = 0%Z.
Proof.
  intros Hn Hsk Hlg Hm.
  assert (Hd : drained (mn s)) by (destruct Hm as [-> | ->]; done).
  assert (Hne : mn s <> MExit) by (destruct Hm as [-> | ->]; done).
  destruct (drained_totals _ _ _ Hn Hsk Hlg Hd)
    as (_ & _ & _ & Hc & Hs & His & Hic & Ht).
  specialize (Hic Hne).
  assert (Ha : Int64.sum (amount <$> lanes s) = count s)
    by (rewrite (amounts_sum _ _ _ Hsk Hlg), Ht; done).
  repeat split; try congruence.
  apply sub_all_zero; [|congruence].
  rewrite Hic. apply wrap_range.
Qed.

Lemma verify_ok n tr s :
  (0 < n)%nat -> skeleton n s -> ledger n tr s -> mn s = MVerify ->
  verify (inputSum s) (sum s) (inputCount s) (count s) (amount <$> lanes s)
  = ([], Some 0%Z).
Proof.
  intros Hn Hsk Hlg Hm.
  destruct (drained_checks _ _ _ Hn Hsk Hlg (or_intror Hm)) as (H1 & H2 & _ & H4).
  rewrite verify_cases.
  rewrite (proj2 (Z.eqb_eq _ _) H1), (proj2 (Z.eqb_eq _ _) H2), H4. done.
Qed.

Lemma occ_elem {A} `{EqDecision A} (v : A) l : (0 < occ v l)%nat -> v ∈ l.
Proof.
  induction l as [|x l IH]; [unfold occ; simpl; lia|].
  rewrite occ_cons. case_decide; [subst; left|right; apply IH; lia].
Qed.

Lemma closing_signals n tr s :
  skeleton n s -> audit n tr s -> closer s = Some ClClose ->
  forall k, (k < n)%nat -> k ∈ done_signals tr.
Proof.
  intros Hsk Hau Hc k Hk.
  destruct (lookup_lt_is_Some_2 (lanes s) k) as [ln Hl].
  { by rewrite (sk_len _ _ Hsk). }
  destruct (closing_quiet _ _ Hsk (or_introl Hc) _ _ Hl) as (_ & Hco & _).
  apply occ_elem. rewrite (au_done _ _ _ Hau _ _ Hl), Hco. lia.
Qed.

Ltac in_events H :=
  repeat match type of H with
  | _ ∈ _ ++ _ => apply elem_of_app in H as [H|H]
  | _ ∈ _ :: _ => apply elem_of_cons in H as [H|H]
  | _ ∈ [] => by apply elem_of_nil in H
  | _ ∈ _ <$> _ => apply list_elem_of_fmap in H as (? & ? & H)
  end;
  try done.

Ltac t_au_lane Hau :=
  let k' := fresh "k'" in
  let ln' := fresh "ln'" in
  let Hl' := fresh "Hl'" in
  intros k' ln' Hl'; split_lane Hl';
  try (pose proof (Hau _ _ Hl'));
  autorewrite with trace; simpl; norm; repeat case_decide; simplify_eq;
  norm; lit.

Ltac t_au_order n tr Aord Hsig :=
  let Hin := fresh "Hin" in
  apply (order_step
           (fun pre => forall k, (k < n)%nat -> k ∈ done_signals pre)
           EvCloseRes tr _ Aord);
  intros Hin; in_events Hin; (split; [done|by apply Hsig]).

Ltac t_au_report Arep Hrep :=
  let Hin := fresh "Hin" in
  intros ? ? ? ? ? Hin; apply elem_of_app in Hin as [Hin|Hin];
  [by eapply Arep|]; in_events Hin; simplify_eq;
  repeat match goal with H : _ /\ _ |- _ => destruct H end;
  repeat split; congruence.

Lemma audit_step n tr s a s' e :
  (0 < n)%nat -> skeleton n s -> ledger n tr s -> audit n tr s ->
  step n a s = Some (s', e) -> audit n (tr ++ e) s'.
Proof.
  intros Hn Hsk Hlg Hau Hstep.
  pose proof (verify_ok _ _ _ Hn Hsk Hlg) as Hv.
  pose proof (drained_checks _ _ _ Hn Hsk Hlg) as Hrep.
  pose proof (closing_signals _ _ _ Hsk Hau) as Hsig.
  pose proof (sk_crashed _ _ Hsk) as Hcr.
  pose proof (sk_crashed _ _ (skeleton_step _ _ _ _ _ Hsk Hstep)) as Hcr'.
  clear Hlg.
  step_inv Hstep.
  all: try done.
  all: destruct Hsk as [_ Hlen Hmn Hsgen Hin Hlane Hwg Hcl Hclosing Hres Hdr Hemp].
  all: lane_facts Hlane.
  all: repeat match goal with H : lane_ok _ _ _ _ _ |- _ => destruct H end.
  all: clear Hlane Hwg Hcl Hclosing Hdr Hemp.
  all: destruct Hau as [Ain Aout Adone Ares Aord Apanic [Afat Amf] Arep Aexit
                          Arest Apend].
  all: unfold halted in Hhalt; rewrite Hcr in Hhalt; simpl in Hhalt.
  all: try match goal with
       | Hk : lanes ?s !! ?k = Some ?ln |- _ =>
           pose proof (Aout _ _ Hk); pose proof (Adone _ _ Hk)
       end.
  all: arith; norm; chain.
  all: try lit.
  all: try match goal with
       | H : (_, _) = (_, _) |- _ => injection H as -> ->
       end.
  all: constructor; simpl.
  all: autorewrite with trace; simpl; autorewrite with trace.
  all: norm.
  all: try assumption.
  all: try lit.
  all: try (t_au_lane Aout).
  all: try (t_au_lane Adone).
  all: try (t_au_order n tr Aord Hsig).
  all: try (t_au_report Arep Hrep).
  all: try (intros ? [= <-]; rewrite elem_of_app; right; by left).
  all: try (intros ? ?; rewrite elem_of_app; left; by apply Apend).
  all: try (let E := fresh "E" in intros E; by rewrite E in Hhalt).
Qed.

Lemma audit_init n : audit n [] (init n).
Proof.
  constructor; simpl; try done.
  - by intros k ln [-> Hk]%lookup_replicate.
  - by intros k ln [-> Hk]%lookup_replicate.
  - intros pre post E. by destruct pre.
  - intros ? ? ? ? ? H. by apply elem_of_nil in H.
Qed.

Lemma reach_audit n tr s : (0 < n)%nat -> reach n tr s -> audit n tr s.
Proof.
  intros Hn. induction 1 as [|tr s a s' e Hr IH Hstep]; [apply audit_init|].
  eapply audit_step; eauto using reach_skeleton, reach_ledger.
Qed.

(** *** Termination and absence of deadlock *)

Lemma cancelled_step n a s s' e :
  step n a s = Some (s', e) -> cancelled s = true -> cancelled s' = true.
Proof. intros Hstep Hc. step_inv Hstep; simpl; congruence. Qed.

Lemma measure_step n a s s' e :
  skeleton n s -> cancelled s = true -> step n a s = Some (s', e) ->
  (measure n s' < measure n s)%nat.
Proof.
  intros Hsk Hc Hstep.
  pose proof (sk_crashed _ _ (skeleton_step _ _ _ _ _ Hsk Hstep)) as Hcr'.
  step_inv Hstep.
  all: try done.
  all: destruct Hsk as [_ Hlen Hmn Hsgen Hin Hlane Hwg Hcl Hclosing Hres Hdr Hemp].
  all: lane_facts Hlane.
  all: repeat match goal with H : lane_ok _ _ _ _ _ |- _ => destruct H end.
  all: clear Hlane Hwg Hclosing Hdr Hemp.
  all: unfold measure; simpl; rewrite ?length_app; simpl.
  all: try match goal with
       | Hk : lanes ?s !! ?k = Some ?ln |- context [<[?k:=?new]> (lanes ?s)] =>
           let H := fresh in
           pose proof (sum_list_with_insert lane_cost _ _ _ new Hk) as H;
           unfold lane_cost at 2 4 in H
       end.
  all: arith; norm; chain; norm.
  all: try lia.
Qed.

Lemma sum_list_with_pos {A} (f : A -> nat) l :
  (0 < sum_list_with f l)%nat -> exists k x, l !! k = Some x /\ (0 < f x)%nat.
Proof.
  induction l as [|a l IH]; simpl; [lia|]. intros H.
  destruct (f a) as [|m] eqn:E.
  - destruct IH as (k & x & Hk & Hx); [lia|]. by exists (S k), x.
  - exists O, a. split; [done|lia].
Qed.

Ltac enabled a :=
  exists a;
  unfold step, step_timer, step_gen, step_worker, step_collector,
    step_closer, step_main, panic;
  repeat match goal with
  | H : ?p ?s = _ |- _ => is_var s; rewrite H
  | H : _ !! _ = Some _ |- _ => rewrite H
  end; simpl;
  repeat match goal with
  | H : ?p ?s = _ |- _ => is_var s; rewrite H
  end; simpl;
  eexists _, _; split; [discriminate|reflexivity].

(** No deadlock: a goroutine can move as long as the process runs. *)
Lemma progress n s :
  (0 < n)%nat -> skeleton n s -> halted s = false ->
  exists a s' e, a <> ATimer /\ step n a s = Some (s', e).
Proof.
  intros Hn Hsk Hh.
  destruct Hsk as [Hcr Hlen Hmn Hsgen Hin Hlane Hwg Hcl Hclosing Hres Hdr Hemp].
  destruct (mn s) as [|i|i|i| | |v| | | |] eqn:Hm; simpl in *.
  - enabled AMain.
  - destruct (i <? n)%nat eqn:Hi.
    + apply Nat.ltb_lt in Hi.
      destruct (lookup_lt_is_Some_2 (lanes s) i) as [ln Hl]; [lia|].
      apply Nat.ltb_lt in Hi. enabled AMain.
    + enabled AMain.
  - destruct (i <? n)%nat eqn:Hi; enabled AMain.
  - destruct (lookup_lt_is_Some_2 (lanes s) i) as [ln Hl]; [lia|].
    enabled AMain.
  - enabled AMain.
  - (* [main] waits at [range chOut] *)
    destruct (res_buf s) as [|v rest] eqn:Hb; [|enabled AMain].
    destruct (res_closed s) eqn:Hrc; [enabled AMain|].
    destruct (closer s) as [[]|] eqn:Hclo;
      [|enabled ACloser|naive_solver|naive_solver].
    destruct (wg s) as [|w] eqn:Hw; [enabled ACloser|].
    destruct (sum_list_with_pos active (lanes s)) as (k & ln & Hl & Ha); [lia|].
    destruct (Hlane _ _ Hl) as [Hlw Hlc Hlo Hle Hlx].
    pose proof (lookup_lt_Some _ _ _ Hl) as Hk.
    unfold active in Ha. simpl in *.
    destruct (col ln) as [[]|] eqn:Hc; try lia.
    + (* the collector waits for its worker *)
      destruct (out_closed ln) eqn:Ho; [enabled (ACollector k)|].
      destruct (wk ln) as [[]|] eqn:Hwk.
      * destruct (in_closed s) eqn:Hi; [enabled (AWorker k)|].
        destruct (gen s) as [[]|] eqn:Hg;
          try (enabled AGen); try (enabled (AWorker k)); naive_solver.
      * enabled (AWorker k).
      * enabled (AWorker k).
      * enabled (AWorker k).
      * naive_solver.
      * assert (n <= k)%nat by by apply Hlw. lia.
    + enabled (ACollector k).
    + destruct n as [|n']; [lia|]. enabled (ACollector k).
    + enabled (ACollector k).
  - enabled AMain.
  - enabled AMain.
  - exists AMain. unfold step, step_main. rewrite Hh, Hm.
    destruct (verify _ _ _ _ _) as [ds [rest|]]; eexists _, _; by split.
  - unfold halted in Hh. rewrite Hm, orb_true_r in Hh. done.
  - unfold halted in Hh. rewrite Hm, orb_true_r in Hh. done.
Qed.

Lemma exec_reach n sched : forall tr s s' e,
  reach n tr s -> exec n sched s = Some (s', e) -> reach n (tr ++ e) s'.
Proof.
  induction sched as [|a sched IH]; intros tr s s' e Hr He; simpl in He.
  - simplify_eq. by rewrite app_nil_r.
  - destruct (step n a s) as [[s1 e1]|] eqn:Hs; [|done]. simpl in He.
    destruct (exec n sched s1) as [[s2 e2]|] eqn:Hx; [|done]. simplify_eq/=.
    rewrite app_assoc. eapply IH; [|done]. by eapply reach_step.
Qed.

Lemma exec_app n sched1 sched2 s s1 e1 s2 e2 :
  exec n sched1 s = Some (s1, e1) -> exec n sched2 s1 = Some (s2, e2) ->
  exec n (sched1 ++ sched2) s = Some (s2, e1 ++ e2).
Proof.
  revert s s1 e1. induction sched1 as [|a sched1 IH]; intros s s1 e1 H1 H2.
  - simpl in H1. by simplify_eq.
  - simpl in *.
    destruct (step n a s) as [[s' e']|]; [|done]. simpl in *.
    destruct (exec n sched1 s') as [[s'' e'']|] eqn:E; [|done].
    simplify_eq/=. rewrite (IH _ _ _ E H2). simpl. by rewrite app_assoc.
Qed.

Lemma exec_cancelled n sched : forall s s' e,
  exec n sched s = Some (s', e) -> cancelled s = true -> cancelled s' = true.
Proof.
  induction sched as [|a sched IH]; intros s s' e He Hc; simpl in He.
  - by simplify_eq.
  - destruct (step n a s) as [[s1 e1]|] eqn:Hs; [|done]. simpl in He.
    destruct (exec n sched s1) as [[s2 e2]|] eqn:Hx; [|done]. simplify_eq/=.
    eapply IH; [done|]. by eapply cancelled_step.
Qed.

(** Once the deadline has passed every schedule is finite. *)
Lemma exec_bounded n sched : forall tr s s' e,
  reach n tr s -> cancelled s = true -> exec n sched s = Some (s', e) ->
  (length sched + measure n s' <= measure n s)%nat.
Proof.
  induction sched as [|a sched IH]; intros tr s s' e Hr Hc He; simpl in He.
  - simplify_eq. simpl. lia.
  - destruct (step n a s) as [[s1 e1]|] eqn:Hs; [|done]. simpl in He.
    destruct (exec n sched s1) as [[s2 e2]|] eqn:Hx; [|done]. simplify_eq/=.
    pose proof (measure_step _ _ _ _ _ (reach_skeleton _ _ _ Hr) Hc Hs).
    pose proof (IH _ _ _ _ (reach_step _ _ _ _ _ _ Hr Hs)
                  (cancelled_step _ _ _ _ _ Hs Hc) Hx).
    lia.
Qed.

(** Once the deadline has passed the program can always run to the end
    of [main]. *)
Lemma can_finish n : (0 < n)%nat -> forall m tr s,
  (measure n s <= m)%nat -> reach n tr s -> cancelled s = true ->
  exists sched s' e, exec n sched s = Some (s', e) /\ mn s' = MExit.
Proof.
  intros Hn. induction m as [|m IH]; intros tr s Hm Hr Hc.
  all: destruct (halted s) eqn:Hh.
  all: try (exists [], s, []; split; [done|];
            pose proof (sk_crashed _ _ (reach_skeleton _ _ _ Hr)) as Hcr;
            destruct (au_fatal _ _ _ (reach_audit _ _ _ Hn Hr)) as [_ Hf];
            unfold halted in Hh; rewrite Hcr in Hh;
            by destruct (mn s)).
  all: destruct (progress _ _ Hn (reach_skeleton _ _ _ Hr) Hh)
         as (a & s1 & e1 & _ & Hs).
  all: pose proof (measure_step _ _ _ _ _ (reach_skeleton _ _ _ Hr) Hc Hs).
  - lia.
  - destruct (IH _ s1 ltac:(lia) (reach_step _ _ _ _ _ _ Hr Hs)
                (cancelled_step _ _ _ _ _ Hs Hc)) as (sched & s' & e & He & Hx).
    exists (a :: sched), s', (e1 ++ e). split; [|done].
    simpl. rewrite Hs. simpl. rewrite He. done.
Qed.

Lemma stopping_step n a s s' e :
  stopping s -> step n a s = Some (s', e) ->
  stopping s' /\ Pipeline.sent e = [] /\ Pipeline.observed e = [].
Proof.
  intros [Hc Hg] Hstep. unfold stopping.
  step_inv Hstep; simpl.
  all: try (destruct Hg as [[? Hg]|[Hg|Hg]]; congruence).
  all: try (split; [split; [done|eauto]|done]).
  all: unfold Pipeline.sent, Pipeline.observed;
    rewrite ?gen_events_app, gen_events_fatal; done.
Qed.

Lemma stopping_exec n sched : forall s s' e,
  stopping s -> exec n sched s = Some (s', e) ->
  stopping s' /\ Pipeline.sent e = [] /\ Pipeline.observed e = [].
Proof.
  induction sched as [|a sched IH]; intros s s' e Hst He; simpl in He.
  - by simplify_eq.
  - destruct (step n a s) as [[s1 e1]|] eqn:Hs; [|done]. simpl in He.
    destruct (exec n sched s1) as [[s2 e2]|] eqn:Hx; [|done]. simplify_eq/=.
    destruct (stopping_step _ _ _ _ _ Hst Hs) as (Hst1 & H1 & H2).
    destruct (IH _ _ _ Hst1 Hx) as (Hst2 & H3 & H4).
    by rewrite tr_sent_app, tr_observed_app, H1, H2, H3, H4.
Qed.

(** *** Runs of a schedule *)

Local Open Scope Z_scope.

Lemma exec_init_reach n sched s e :
  exec n sched (init n) = Some (s, e) -> reach n e s.
Proof. intros H. apply (exec_reach n sched [] _ _ _ (reach_init n) H). Qed.

(** *** The properties of the program *)

Lemma occ_none {A} `{EqDecision A} (l : list A) :
  (forall v, occ v l = O) -> l = [].
Proof.
  destruct l as [|x l]; [done|]. intros H. specialize (H x).
  rewrite occ_cons in H. case_decide; [lia|done].
Qed.

Lemma observed_rounds_tr n tr s :
  ledger n tr s ->
  Pipeline.observed tr = value <$> seq 1 (length (Pipeline.observed tr)).
Proof.
  intros Hlg. pose proof (lg_gen _ _ _ Hlg) as Hg.
  unfold Pipeline.observed.
  destruct (gen s) as [g|].
  - destruct (gen_observed_rounds _ _ Hg) as [m Hm].
    by rewrite Hm, length_fmap, length_seq.
  - by rewrite Hg.
Qed.

Lemma sent_observed_tr n tr s :
  ledger n tr s ->
  Pipeline.sent tr = Pipeline.observed tr ++
    match gen s with Some (GCall i) => [i] | _ => [] end.
Proof.
  intros Hlg. pose proof (lg_gen _ _ _ Hlg) as Hg.
  unfold Pipeline.sent, Pipeline.observed.
  destruct (gen s) as [g|].
  - rewrite (gen_sent_observed _ _ Hg). by destruct g.
  - by rewrite Hg.
Qed.

Lemma triangle_small k :
  0 <= k < 4294967296 -> Int64.in_range (Int64.triangle k).
Proof.
  intros Hk. unfold Int64.in_range, Int64.triangle, Int64.min_int, Int64.max_int.
  split.
  - transitivity 0; [lia|]. apply Z.div_pos; nia.
  - apply Z.lt_succ_r. apply Z.div_lt_upper_bound; [lia|]. nia.
Qed.

Lemma stopping_callback s : stopping s -> in_callback s = 0.
Proof.
  intros [_ [[i Hg]|[Hg|Hg]]]; unfold in_callback; by rewrite Hg.
Qed.

Lemma nothing_sent n tr s :
  ledger n tr s -> audit n tr s -> Pipeline.sent tr = [] ->
  Pipeline.observed tr = [] /\ received tr = [] /\ pending s = [].
Proof.
  intros Hlg Hau Hs.
  assert (Ho : Pipeline.observed tr = []).
  { pose proof (sent_observed_tr _ _ _ Hlg) as E. rewrite Hs in E.
    symmetry in E. by apply app_eq_nil in E as [? _]. }
  assert (Hrc : received tr = []).
  { apply occ_none. intros v. pose proof (lg_flow _ _ _ Hlg v) as E.
    rewrite Hs in E. change (occ v []) with O in E. lia. }
  repeat split; try done.
  unfold pending. destruct (mn s) eqn:Hm; try done.
  pose proof (au_pending _ _ _ Hau _ Hm) as Hin. rewrite Hrc in Hin.
  by apply elem_of_nil in Hin.
Qed.

Lemma demo_reach : reach 2 demo_trace demo_state.
Proof. apply (exec_init_reach 2 demo_sched). vm_compute. reflexivity. Qed.

Lemma late_reach : reach 5 late_trace late_state.
Proof. apply (exec_init_reach 5 late_sched). vm_compute. reflexivity. Qed.

Lemma prompt_reach : reach 5 prompt_trace prompt_state.
Proof. apply (exec_init_reach 5 prompt_sched). vm_compute. reflexivity. Qed.

(** C1: at every moment the values sent by the generator are the values
    [main] has received and the values on their way, with their
    multiplicities.  When [main] has left its loop nothing is on its
    way: the values received are the values sent, the observer has seen
    each of them, [count] is their number and [sum] their sum as [int64],
    and both equal the accumulators of the observer; the values handed
    to [fmt.Println] agree as well. *)
Theorem pipeline_conserves_values n tr s :
  (0 < n)%nat -> reach n tr s ->
  Pipeline.sent tr ≡ₚ received tr ++ in_flight s /\
  (drained (mn s) ->
     in_flight s = [] /\
     received tr ≡ₚ Pipeline.sent tr /\
     Pipeline.observed tr = Pipeline.sent tr /\
     count s = Int64.wrap (Z.of_nat (length (Pipeline.sent tr))) /\
     sum s = Int64.sum (Pipeline.sent tr) /\
     inputSum s = sum s /\
     (mn s <> MExit -> inputCount s = count s)) /\
  (forall ic c isum sm am, EvReport ic c isum sm am ∈ tr ->
     ic = c /\ isum = sm).
Proof.
  intros Hn Hr.
  pose proof (reach_skeleton _ _ _ Hr) as Hsk.
  pose proof (reach_ledger _ _ _ Hr) as Hlg.
  pose proof (reach_audit _ _ _ Hn Hr) as Hau.
  split; [by eapply flow_perm|]. split.
  - intros Hd.
    destruct (drained_totals _ _ _ Hn Hsk Hlg Hd)
      as (H1 & H2 & H3 & H4 & H5 & H6 & H7 & _).
    repeat split; try done; try congruence.
    intros Hne. rewrite (H7 Hne). done.
  - intros ic c isum sm am Hin.
    destruct (au_report _ _ _ Hau _ _ _ _ _ Hin) as (? & ? & _). done.
Qed.

Lemma pipeline_conserves_values_witness :
  (0 < 2)%nat /\ reach 2 demo_trace demo_state /\
  received demo_trace ≡ₚ Pipeline.sent demo_trace /\
  count demo_state = inputCount demo_state /\
  sum demo_state = inputSum demo_state.
Proof.
  assert (Hn : (0 < 2)%nat) by lia.
  split; [exact Hn|]. split; [exact demo_reach|].
  destruct (pipeline_conserves_values 2 _ _ Hn demo_reach) as (_ & H & _).
  destruct H as (_ & H2 & _ & _ & _ & H6 & H7); [exact I|].
  split; [exact H2|]. split.
  - symmetry. apply H7. discriminate.
  - symmetry. exact H6.
Defined.

(** C2: when [main] has left its loop, the tallies add up, in [int64]
    arithmetic, to [count] and to [inputCount], so that subtracting them
    one by one from [inputCount] leaves zero.  Every value sent was
    counted once, by a collector with an index below [NumOut], and each
    tally is the number of values its collector counted; as long as the
    number of values fits an [int64] the tallies add up to it as integers
    too. *)
Theorem tallies_partition_the_count n tr s :
  (0 < n)%nat -> reach n tr s -> mn s = MReport \/ mn s = MVerify ->
  Int64.sum (amount <$> lanes s) = count s /\
  Int64.sum (amount <$> lanes s) = inputCount s /\
  Int64.sub_all (inputCount s) (amount <$> lanes s) = 0 /\
  length (tallied tr) = length (Pipeline.sent tr) /\
  Forall (fun k => (k < n)%nat) (tallied tr) /\
  (forall k ln, lanes s !! k = Some ln ->
     amount ln = Int64.wrap (Z.of_nat (occ k (tallied tr)))) /\
  (Z.of_nat (length (Pipeline.sent tr)) <= Int64.max_int ->
     Int64.total (amount <$> lanes s) = count s /\
     count s = Z.of_nat (length (Pipeline.sent tr))).
Proof.
  intros Hn Hr Hm.
  pose proof (reach_skeleton _ _ _ Hr) as Hsk.
  pose proof (reach_ledger _ _ _ Hr) as Hlg.
  assert (Hd : drained (mn s)) by (destruct Hm as [-> | ->]; done).
  destruct (drained_checks _ _ _ Hn Hsk Hlg Hm) as (_ & H2 & H3 & H4).
  destruct (drained_totals _ _ _ Hn Hsk Hlg Hd)
    as (_ & _ & _ & H5 & _ & _ & _ & H8).
  repeat split; try done; try congruence.
  - apply (lg_index _ _ _ Hlg).
  - apply (lg_amount _ _ _ Hlg).
  - rewrite (amounts_exact _ _ _ Hsk Hlg) by lia.
    rewrite H5, H8. symmetry. apply wrap_small.
    unfold Int64.in_range, Int64.min_int, Int64.max_int in *. lia.
  - rewrite H5. apply wrap_small.
    unfold Int64.in_range, Int64.min_int, Int64.max_int in *. lia.
Qed.

Lemma tallies_partition_the_count_witness :
  (0 < 2)%nat /\ reach 2 demo_trace demo_state /\
  (mn demo_state = MReport \/ mn demo_state = MVerify) /\
  Int64.sum (amount <$> lanes demo_state) = count demo_state /\
  Int64.sub_all (inputCount demo_state) (amount <$> lanes demo_state) = 0.
Proof.
  assert (Hn : (0 < 2)%nat) by lia.
  assert (Hm : mn demo_state = MReport \/ mn demo_state = MVerify)
    by (left; reflexivity).
  split; [exact Hn|]. split; [exact demo_reach|]. split; [exact Hm|].
  destruct (tallies_partition_the_count 2 _ _ Hn demo_reach Hm)
    as (H1 & _ & H3 & _).
  split; [exact H1|exact H3].
Defined.

Lemma closer_frame n s1 s2 e :
  step n ACloser s1 = Some (s2, e) ->
  res_buf s2 = res_buf s1 /\ received e = [] /\ mn s2 = mn s1 /\
  count s2 = count s1 /\ sum s2 = sum s1.
Proof.
  unfold step, step_closer, panic. intros H.
  repeat (simplify_option_eq || case_match); simplify_eq; done.
Qed.

(** C6: [chOut] is closed at most once, and once exactly when it is
    closed, which it is when [main] has left its loop; every collector
    has called [wg.Done()] before the close; no goroutine ever panics (no
    send on a closed channel, no second close).  A step of the closer
    leaves the buffer of [chOut] and [main] as they are, and [main]
    receives a buffered value whatever the closer is doing. *)
Theorem result_channel_closed_once n tr s :
  (0 < n)%nat -> reach n tr s ->
  (occ EvCloseRes tr <= 1)%nat /\
  (occ EvCloseRes tr = 1%nat <-> res_closed s = true) /\
  (drained (mn s) -> occ EvCloseRes tr = 1%nat) /\
  (forall pre post, tr = pre ++ EvCloseRes :: post ->
     forall k, (k < n)%nat -> k ∈ done_signals pre) /\
  occ EvPanic tr = 0%nat /\ crashed s = false /\
  (forall s1 s2 e, step n ACloser s1 = Some (s2, e) ->
     res_buf s2 = res_buf s1 /\ received e = [] /\ mn s2 = mn s1 /\
     count s2 = count s1 /\ sum s2 = sum s1) /\
  (forall s1 v rest, halted s1 = false -> mn s1 = MRecv ->
     res_buf s1 = v :: rest ->
     step n AMain s1 = Some (set_res_buf rest (set_mn (MAcc v) s1), [EvRecv v])).
Proof.
  intros Hn Hr.
  pose proof (reach_skeleton _ _ _ Hr) as Hsk.
  pose proof (reach_audit _ _ _ Hn Hr) as Hau.
  pose proof (au_res _ _ _ Hau) as Hres.
  repeat split.
  - rewrite Hres. destruct (res_closed s); lia.
  - rewrite Hres. by destruct (res_closed s).
  - intros Hc. by rewrite Hres, Hc.
  - intros Hd. by rewrite Hres, (sk_drained _ _ Hsk Hd).
  - apply (au_order _ _ _ Hau).
  - apply (au_panic _ _ _ Hau).
  - apply (sk_crashed _ _ Hsk).
  - by eapply closer_frame.
  - by eapply closer_frame.
  - by eapply closer_frame.
  - by eapply closer_frame.
  - by eapply closer_frame.
  - intros s1 v rest Hh Hm Hb. unfold step, step_main. by rewrite Hh, Hm, Hb.
Qed.

Lemma result_channel_closed_once_witness :
  (0 < 2)%nat /\ reach 2 demo_trace demo_state /\
  occ EvCloseRes demo_trace = 1%nat /\
  (forall pre post, demo_trace = pre ++ EvCloseRes :: post ->
     forall k, (k < 2)%nat -> k ∈ done_signals pre).
Proof.
  assert (Hn : (0 < 2)%nat) by lia.
  split; [exact Hn|]. split; [exact demo_reach|].
  destruct (result_channel_closed_once 2 _ _ Hn demo_reach)
    as (_ & _ & H3 & H4 & _).
  split; [exact (H3 I)|exact H4].
Defined.

(** C8, as the code has it: when the deadline has passed and the
    generator, which has sent nothing, is at its [select] (or past it on
    the way out), then whatever the scheduler does next the generator
    sends nothing and the observer is not called; the four accumulators
    stay 0; no check fails and nothing panics; the run cannot take more
    steps than the measure of the state allows and can always be carried
    on to the return of [main]; and when [main] has returned, [chIn],
    every [outs[k]] and [chOut] have been closed, each once. *)
Theorem cancelled_at_first_check n tr0 s0 sched s e :
  (0 < n)%nat -> reach n tr0 s0 -> Pipeline.sent tr0 = [] -> stopping s0 ->
  exec n sched s0 = Some (s, e) ->
  Pipeline.sent (tr0 ++ e) = [] /\ Pipeline.observed (tr0 ++ e) = [] /\
  received (tr0 ++ e) = [] /\
  inputSum s = 0 /\ inputCount s = 0 /\ count s = 0 /\ sum s = 0 /\
  fatals (tr0 ++ e) = [] /\ mn s <> MFatal /\
  occ EvPanic (tr0 ++ e) = 0%nat /\ crashed s = false /\
  (length sched <= measure n s0)%nat /\
  (exists sched' s' e', exec n sched' s = Some (s', e') /\ mn s' = MExit) /\
  (mn s = MExit ->
     in_closed s = true /\ res_closed s = true /\
     occ (EvGen Gen.Closed) (tr0 ++ e) = 1%nat /\
     occ EvCloseRes (tr0 ++ e) = 1%nat /\
     forall k ln, lanes s !! k = Some ln ->
       out_closed ln = true /\
       occ (EvWorker k Wk.Closed) (tr0 ++ e) = 1%nat).
Proof.
  intros Hn Hr0 Hs0 Hst Hex.
  pose proof (exec_reach _ _ _ _ _ _ Hr0 Hex) as Hr.
  destruct (stopping_exec _ _ _ _ _ Hst Hex) as (Hst' & He1 & He2).
  pose proof (reach_skeleton _ _ _ Hr) as Hsk.
  pose proof (reach_ledger _ _ _ Hr) as Hlg.
  pose proof (reach_audit _ _ _ Hn Hr) as Hau.
  assert (Hs : Pipeline.sent (tr0 ++ e) = [])
    by by rewrite tr_sent_app, Hs0, He1.
  destruct (nothing_sent _ _ _ Hlg Hau Hs) as (Ho & Hrc & Hp).
  destruct (au_fatal _ _ _ Hau) as [Hf Hmf].
  split; [done|]. split; [done|]. split; [done|].
  split. { by rewrite (lg_sum _ _ _ Hlg), Ho. }
  split.
  { destruct (mn s) eqn:Hx;
      first [ by apply (au_rest _ _ _ Hau)
            | rewrite (lg_count _ _ _ Hlg), Ho, (stopping_callback _ Hst');
              [done|by rewrite Hx] ]. }
  split. { by rewrite (lg_acc_count _ _ _ Hlg), Hrc, Hp. }
  split. { by rewrite (lg_acc_sum _ _ _ Hlg), Hrc, Hp. }
  split; [done|]. split; [done|].
  split. { apply (au_panic _ _ _ Hau). }
  split. { apply (sk_crashed _ _ Hsk). }
  split.
  { pose proof (exec_bounded _ _ _ _ _ _ Hr0 (proj1 Hst) Hex). lia. }
  split.
  { eapply (can_finish n Hn (measure n s)); [lia|exact Hr|apply Hst']. }
  intros Hx.
  assert (Hd : drained (mn s)) by by rewrite Hx.
  destruct (drained_quiet _ _ Hn Hsk Hd) as (_ & Hi & Hc & _ & _ & _ & Hq).
  split; [done|]. split; [done|].
  split. { by rewrite (au_in _ _ _ Hau), Hi. }
  split. { by rewrite (au_res _ _ _ Hau), Hc. }
  intros k ln Hk. destruct (Hq _ _ Hk) as (_ & _ & Hout).
  split; [done|]. by rewrite (au_out _ _ _ Hau _ _ Hk), Hout.
Qed.

Lemma cancelled_at_first_check_witness :
  (0 < 5)%nat /\ reach 5 prompt_trace prompt_state /\
  Pipeline.sent prompt_trace = [] /\ stopping prompt_state /\
  exec 5 rest_sched prompt_state = Some (rest_state, rest_trace) /\
  Pipeline.sent (prompt_trace ++ rest_trace) = [] /\
  inputCount rest_state = 0 /\ count rest_state = 0.
Proof.
  assert (Hn : (0 < 5)%nat) by lia.
  assert (Hs : Pipeline.sent prompt_trace = []) by reflexivity.
  assert (Hst : stopping prompt_state).
  { split; [reflexivity|]. left. exists 1. reflexivity. }
  assert (Hex : exec 5 rest_sched prompt_state = Some (rest_state, rest_trace)).
  { vm_compute. reflexivity. }
  split; [exact Hn|]. split; [exact prompt_reach|]. split; [exact Hs|].
  split; [exact Hst|]. split; [exact Hex|].
  destruct (cancelled_at_first_check 5 _ _ _ _ _ Hn prompt_reach Hs Hst Hex)
    as (H1 & _ & _ & _ & H5 & H6 & _).
  split; [exact H1|]. split; [exact H5|exact H6].
Defined.

(** C8 as it is stated fails: in [late_sched] the deadline passes before
    any value has been sent, and the value 1 is sent and observed all
    the same. *)
Lemma cancel_before_first_value_fails : ~ cancel_before_first_value 5.
Proof.
  intros H.
  destruct (H late_trace late_state [] (tail late_trace) late_reach)
    as [Hs _]; [reflexivity|reflexivity|].
  vm_compute in Hs. discriminate.
Qed.

(** C9: the values observed are the counter values of rounds 1, 2, ...,
    and with [k] of them observed, [inputSum] holds the [k]-th
    triangular number and [inputCount] holds [k] (less one inside the
    observer).  They hold them as [int64], that is modulo 2^64, and
    they are these numbers themselves as long as [k] is below 2^32,
    which is far more than the program sends before its deadline. *)
Theorem observer_closed_form n tr s :
  reach n tr s ->
  let k := Z.of_nat (length (Pipeline.observed tr)) in
  Pipeline.observed tr = value <$> seq 1 (length (Pipeline.observed tr)) /\
  inputSum s = Int64.wrap (Int64.triangle k) /\
  (mn s <> MExit -> inputCount s = Int64.wrap (k - in_callback s)) /\
  (k < 4294967296 ->
     inputSum s = Int64.triangle k /\
     (mn s <> MExit -> in_callback s = 0 -> inputCount s = k)).
Proof.
  intros Hr k.
  pose proof (reach_ledger _ _ _ Hr) as Hlg.
  pose proof (observed_rounds_tr _ _ _ Hlg) as Ho.
  assert (Hsum : inputSum s = Int64.wrap (Int64.triangle k)).
  { rewrite (lg_sum _ _ _ Hlg), Ho. apply sum_values. }
  split; [done|]. split; [done|].
  split; [apply (lg_count _ _ _ Hlg)|].
  intros Hk. split.
  - rewrite Hsum. apply wrap_small, triangle_small. lia.
  - intros Hne Hcb. rewrite (lg_count _ _ _ Hlg Hne), Hcb, Z.sub_0_r.
    apply wrap_small.
    unfold Int64.in_range, Int64.min_int, Int64.max_int. lia.
Qed.

Lemma observer_closed_form_witness :
  reach 2 demo_trace demo_state /\
  inputSum demo_state = Int64.triangle 2 /\ inputCount demo_state = 2.
Proof.
  split; [exact demo_reach|].
  destruct (observer_closed_form 2 _ _ demo_reach) as (_ & _ & _ & H).
  destruct H as [H1 H2]; [reflexivity|].
  split; [exact H1|]. apply H2; [discriminate|reflexivity].
Defined.

(** ** Order, backpressure and shutdown *)

Local Close Scope Z_scope.

(** *** Further invariants *)

Lemma published_app k t1 t2 :
  published k (t1 ++ t2) = published k t1 ++ published k t2.
Proof. apply omap_app. Qed.
Lemma published_all_app t1 t2 :
  published_all (t1 ++ t2) = published_all t1 ++ published_all t2.
Proof. apply omap_app. Qed.
Lemma published_fatal k l : published k (EvFatal <$> l) = [].
Proof. by induction l. Qed.
Lemma published_all_fatal l : published_all (EvFatal <$> l) = [].
Proof. by induction l. Qed.

#[export] Hint Rewrite published_app published_all_app published_fatal
  published_all_fatal got_app put_app : trace.

Ltac t_or_lane Hput :=
  let k' := fresh "k'" in
  let ln' := fresh "ln'" in
  let Hl' := fresh "Hl'" in
  intros k' ln' Hl'; split_lane Hl';
  try (pose proof (Hput _ _ Hl'));
  unfold col_held, tallying in *;
  autorewrite with trace; simpl; repeat case_decide; simplify_eq;
  autorewrite with trace; simpl; norm;
  rewrite ?app_nil_r, ?length_app, ?occ_app, ?occ_cons, ?occ_nil in *;
  simpl in *; repeat case_decide; simplify_eq;
  first [done | congruence | lia
        | match goal with H : _ = _ |- _ => rewrite H; by rewrite <- ?app_assoc end ].

Ltac t_or_got Hgot :=
  let k' := fresh "k'" in
  intros k'; specialize (Hgot k');
  unfold Pipeline.sent in *;
  autorewrite with trace; simpl; repeat case_decide; simplify_eq;
  autorewrite with trace; simpl; rewrite ?app_nil_r;
  first [ assumption
        | by apply sublist_app
        | by apply sublist_inserts_r ].

Lemma order_inv_step n tr s a s' e :
  skeleton n s -> order tr s -> step n a s = Some (s', e) -> order (tr ++ e) s'.
Proof.
  intros Hsk Hor Hstep.
  step_inv Hstep.
  all: destruct Hsk as [Hcr Hlen Hmn Hsgen Hin Hlane Hwg Hcl Hclosing Hres Hdr Hemp].
  all: lane_facts Hlane.
  all: repeat match goal with H : lane_ok _ _ _ _ _ |- _ => destruct H end.
  all: clear Hlane Hwg Hcl Hclosing Hres Hdr Hemp Hin.
  all: destruct Hor as [Hgot Hput Htally Hfifo].
  all: try match goal with
       | Hk : lanes ?s !! ?k = Some ?ln |- _ =>
           pose proof (Hput _ _ Hk); pose proof (Htally _ _ Hk)
       end.
  all: unfold col_held, tallying in *.
  all: arith; norm; chain.
  all: constructor; simpl.
  all: try (t_or_got Hgot).
  all: try (t_or_lane Hput).
  all: try (t_or_lane Htally).
  all: autorewrite with trace; simpl; norm; rewrite ?app_nil_r.
  all: try done.
  all: try (try rewrite Hfifo; rewrite <- ?app_assoc; done).
Qed.

Lemma order_init n : order [] (init n).
Proof.
  constructor; simpl; try done.
  all: by intros k ln [-> Hk]%lookup_replicate.
Qed.

Lemma reach_order n tr s : reach n tr s -> order tr s.
Proof.
  induction 1 as [|tr s a s' e Hr IH Hstep]; [apply order_init|].
  eapply order_inv_step; eauto using reach_skeleton.
Qed.

Lemma after_cancel_out tr e :
  occ EvCancel tr = O -> after_cancel (tr ++ e) = after_cancel e.
Proof.
  induction tr as [|x tr IH]; [done|]. rewrite occ_cons. intros H.
  destruct x; simpl; try (apply IH; simpl in H; lia).
  by rewrite decide_True in H.
Qed.

Lemma after_cancel_in tr e :
  (0 < occ EvCancel tr)%nat -> after_cancel (tr ++ e) = after_cancel tr ++ e.
Proof.
  induction tr as [|x tr IH]; [rewrite occ_nil; lia|]. rewrite occ_cons. intros H.
  destruct x; simpl; try (apply IH; simpl in H; lia).
  done.
Qed.

Lemma deadline_inv_step n tr s a s' e :
  deadline tr s -> step n a s = Some (s', e) -> deadline (tr ++ e) s'.
Proof.
  intros Hdl Hstep.
  step_inv Hstep.
  all: destruct Hdl as [Honce Hsent].
  all: destruct (cancelled s) eqn:Hc; simpl in *; try done.
  all: try specialize (Hsent eq_refl).
  all: constructor; simpl.
  all: rewrite ?occ_app, ?occ_cons, ?occ_nil, ?occ_fatal; simpl.
  all: norm.
  all: try lia.
  all: try done.
  all: intros _.
  all: try (rewrite after_cancel_out by done; unfold Pipeline.sent; simpl;
            repeat case_match; first [done | lia]).
  all: rewrite after_cancel_in by lia.
  all: unfold Pipeline.sent in *.
  all: autorewrite with trace; simpl; autorewrite with trace; simpl.
  all: rewrite ?app_nil_r.
  all: try done.
  all: try (rewrite ?length_app; simpl; by rewrite ?Hsent).
  all: try (repeat case_match; first [done | lia]).
  all: destruct (gen s) as [[]|]; rewrite ?Hsent; simpl; lia.
Qed.

Lemma deadline_init n : deadline [] (init n).
Proof. constructor; simpl; done. Qed.

Lemma reach_deadline n tr s : reach n tr s -> deadline tr s.
Proof.
  induction 1 as [|tr s a s' e Hr IH Hstep]; [apply deadline_init|].
  eapply deadline_inv_step; eauto.
Qed.

Lemma capacity_step n s a s' e :
  (length (res_buf s) <= n)%nat -> step n a s = Some (s', e) ->
  (length (res_buf s') <= n)%nat.
Proof.
  intros Hb Hstep. step_inv Hstep; simpl; arith; norm;
    rewrite ?length_app; simpl in *; lia.
Qed.

Lemma reach_capacity n tr s : reach n tr s -> (length (res_buf s) <= n)%nat.
Proof.
  induction 1 as [|tr s a s' e Hr IH Hstep]; [simpl; lia|].
  by eapply capacity_step.
Qed.

Lemma sum_list_with_le {A} (f : A -> nat) c l :
  (forall x, f x <= c)%nat -> (sum_list_with f l <= c * length l)%nat.
Proof.
  intros Hf. induction l as [|x l IH]; simpl; [lia|].
  rewrite Nat.mul_succ_r. specialize (Hf x). lia.
Qed.

Lemma length_bind_le {A B} (f : A -> list B) c l :
  (forall x, length (f x) <= c)%nat -> (length (l ≫= f) <= c * length l)%nat.
Proof.
  intros Hf. induction l as [|x l IH]; [simpl; lia|].
  rewrite bind_cons, length_app. simpl length.
  rewrite Nat.mul_succ_r. specialize (Hf x). lia.
Qed.

Lemma measure_le n s :
  skeleton n s -> (length (res_buf s) <= n)%nat ->
  (measure n s <= 19 * n + 25)%nat.
Proof.
  intros Hsk Hb. unfold measure.
  assert (gen_cost (gen s) <= 12)%nat by (destruct (gen s) as [[]|]; simpl; lia).
  assert (sum_list_with lane_cost (lanes s) <= 14 * n)%nat.
  { rewrite <- (sk_len _ _ Hsk). apply sum_list_with_le.
    intros [[[]|] ? [[]|] ?]; unfold lane_cost; simpl; lia. }
  assert (closer_cost (closer s) <= 2)%nat
    by (destruct (closer s) as [[]|]; simpl; lia).
  assert (main_cost n (mn s) <= 11 + 3 * n)%nat
    by (destruct (mn s); simpl; lia).
  lia.
Qed.

Lemma gen_sent_rounds evs g :
  Gen.reach evs g -> exists m, Gen.sent evs = value <$> seq 1 m.
Proof.
  intros [n Hs]%gen_shape.
  destruct g; simpl in Hs;
    repeat match goal with
      | H : _ /\ _ |- _ => destruct H
      | H : exists _, _ |- _ => destruct H
      end; subst;
    rewrite ?sent_app, ?sent_rounds;
    first [ by eexists
          | by exists n; apply app_nil_r
          | by exists (S n); rewrite seq_S, fmap_app ].
Qed.

Lemma sent_rounds_tr n tr s :
  ledger n tr s ->
  Pipeline.sent tr = value <$> seq 1 (length (Pipeline.sent tr)).
Proof.
  intros Hlg. pose proof (lg_gen _ _ _ Hlg) as Hg.
  unfold Pipeline.sent.
  destruct (gen s) as [g|].
  - destruct (gen_sent_rounds _ _ Hg) as [m Hm].
    by rewrite Hm, length_fmap, length_seq.
  - by rewrite Hg.
Qed.

Lemma got_put_held evs w :
  Wk.reach evs w -> Wk.got evs = Wk.put evs ++ Wk.held w.
Proof.
  intros [xs Hs]%wk_shape.
  destruct w; simpl in Hs;
    repeat match goal with
      | H : _ /\ _ |- _ => destruct H
      | H : exists _, _ |- _ => destruct H
      end; subst;
    rewrite ?got_app, ?put_app, ?got_relay, ?put_relay; simpl;
    by rewrite ?app_nil_r.
Qed.

Lemma sorted_sublist {A} (R : A -> A -> Prop) l1 l2 :
  l1 `sublist_of` l2 -> StronglySorted R l2 -> StronglySorted R l1.
Proof.
  induction 1 as [|x l1 l2 Hs IH|x l1 l2 Hs IH]; intros Hl2.
  - constructor.
  - apply StronglySorted_inv in Hl2 as [Hl2 Hx].
    constructor; [by apply IH|].
    eapply Forall_forall. intros y Hy.
    eapply Forall_forall in Hx; [done|]. by eapply elem_of_sublist.
  - apply StronglySorted_inv in Hl2 as [Hl2 _]. by apply IH.
Qed.

Lemma sorted_seq a m :
  StronglySorted Z.lt (Z.of_nat <$> seq a m).
Proof.
  revert a. induction m as [|m IH]; intros a; simpl; constructor; [apply IH|].
  apply Forall_fmap, Forall_forall. intros y Hy%elem_of_seq. simpl. lia.
Qed.

Lemma values_exact m :
  (Z.of_nat m <= Int64.max_int)%Z -> value <$> seq 1 m = Z.of_nat <$> seq 1 m.
Proof.
  intros Hm. apply list_fmap_ext. intros i k Hk.
  apply lookup_seq in Hk as [-> Hk]. apply value_exact. lia.
Qed.

Lemma after_cancel_split pre post :
  occ EvCancel (pre ++ EvCancel :: post) = 1%nat ->
  occ EvCancel pre = O /\ occ EvCancel post = O /\
  after_cancel (pre ++ EvCancel :: post) = post.
Proof.
  rewrite occ_app, occ_cons, decide_True by done. intros H.
  split; [lia|]. split; [lia|].
  rewrite after_cancel_out by lia. done.
Qed.

(** *** Further properties of the program *)

Lemma reach_running n tr s :
  (0 < n)%nat -> reach n tr s -> mn s <> MExit -> halted s = false.
Proof.
  intros Hn Hr Hm. unfold halted.
  rewrite (sk_crashed _ _ (reach_skeleton _ _ _ Hr)).
  destruct (au_fatal _ _ _ (reach_audit _ _ _ Hn Hr)) as [_ Hf].
  by destruct (mn s).
Qed.

Lemma sum_list_with_prefix {A} (f : A -> nat) l : forall c,
  (forall x, f x <= 1)%nat ->
  (forall k x, l !! k = Some x -> (c <= k)%nat -> f x = O) ->
  (sum_list_with f l <= c)%nat.
Proof.
  induction l as [|x l IH]; intros c H1 H0; simpl; [lia|].
  destruct c as [|c].
  - rewrite (H0 O x) by (done || lia).
    specialize (IH O H1). simpl. apply IH.
    intros k y Hk _. apply (H0 (S k) y); [done|lia].
  - specialize (H1 x) as Hx. 
    assert (sum_list_with f l <= c)%nat; [|lia].
    apply IH; [done|]. intros k y Hk Hc. apply (H0 (S k) y); [done|lia].
Qed.

Lemma published_sublist k tr : published k tr `sublist_of` published_all tr.
Proof.
  induction tr as [|x tr IH]; [done|].
  destruct x; simpl; try done.
  case_decide; by constructor.
Qed.

(** X1: the program cannot deadlock: as long as [main] has not returned,
    some goroutine, not counting the timer of the context, can take a
    step. *)
Theorem some_goroutine_can_run n tr s :
  (0 < n)%nat -> reach n tr s -> mn s <> MExit ->
  exists a s' e, a <> ATimer /\ step n a s = Some (s', e).
Proof.
  intros Hn Hr Hm.
  apply progress; [done|by eapply reach_skeleton|by eapply reach_running].
Qed.

Lemma some_goroutine_can_run_witness :
  (0 < 2)%nat /\ reach 2 demo_trace demo_state /\ mn demo_state <> MExit /\
  exists a s' e, a <> ATimer /\ step 2 a demo_state = Some (s', e).
Proof.
  assert (Hn : (0 < 2)%nat) by lia.
  assert (Hm : mn demo_state <> MExit) by (vm_compute; discriminate).
  split; [exact Hn|]. split; [exact demo_reach|]. split; [exact Hm|].
  exact (some_goroutine_can_run 2 _ _ Hn demo_reach Hm).
Defined.

(** X2: once the deadline has passed the program ends: whatever the
    scheduler does from then on, it takes at most [19 * NumOut + 25]
    further steps, and from wherever it has got to the program can run
    on to the return of [main]. *)
Theorem run_ends_after_deadline n tr s sched s' e :
  (0 < n)%nat -> reach n tr s -> cancelled s = true ->
  exec n sched s = Some (s', e) ->
  (length sched <= 19 * n + 25)%nat /\
  exists sched' s'' e', exec n sched' s' = Some (s'', e') /\ mn s'' = MExit.
Proof.
  intros Hn Hr Hc He. split.
  - pose proof (exec_bounded _ _ _ _ _ _ Hr Hc He).
    pose proof (measure_le _ _ (reach_skeleton _ _ _ Hr)
                  (reach_capacity _ _ _ Hr)).
    lia.
  - eapply (can_finish n Hn (measure n s')); [done| |].
    + eapply exec_reach; eassumption.
    + eapply exec_cancelled; eassumption.
Qed.

Lemma run_ends_after_deadline_witness :
  (0 < 5)%nat /\ reach 5 prompt_trace prompt_state /\
  cancelled prompt_state = true /\
  exec 5 rest_sched prompt_state = Some (rest_state, rest_trace) /\
  (length rest_sched <= 19 * 5 + 25)%nat /\
  exists sched' s'' e',
    exec 5 sched' rest_state = Some (s'', e') /\ mn s'' = MExit.
Proof.
  assert (Hn : (0 < 5)%nat) by lia.
  assert (Hc : cancelled prompt_state = true) by reflexivity.
  assert (Hex : exec 5 rest_sched prompt_state = Some (rest_state, rest_trace)).
  { vm_compute. reflexivity. }
  split; [exact Hn|]. split; [exact prompt_reach|]. split; [exact Hc|].
  split; [exact Hex|].
  exact (run_ends_after_deadline 5 _ _ _ _ _ Hn prompt_reach Hc Hex).
Defined.

(** X3: [log.Fatalf] is never called: no diagnostic is ever written,
    the step of [main] through its three checks is a normal return that
    leaves [inputCount] at zero, and [main] never ends in any other
    way. *)
Theorem checks_never_fail n tr s :
  (0 < n)%nat -> reach n tr s ->
  fatals tr = [] /\ mn s <> MFatal /\
  (mn s = MVerify ->
   step n AMain s = Some (set_inputCount 0 (set_mn MExit s), [EvExit])) /\
  (mn s = MExit -> inputCount s = 0%Z).
Proof.
  intros Hn Hr.
  pose proof (reach_skeleton _ _ _ Hr) as Hsk.
  pose proof (reach_ledger _ _ _ Hr) as Hlg.
  pose proof (reach_audit _ _ _ Hn Hr) as Hau.
  destruct (au_fatal _ _ _ Hau) as [Hf Hm].
  split; [done|]. split; [done|]. split.
  - intros Hv. unfold step, halted.
    rewrite (sk_crashed _ _ Hsk), Hv. simpl. unfold step_main. rewrite Hv.
    by rewrite (verify_ok _ _ _ Hn Hsk Hlg Hv).
  - apply (au_rest _ _ _ Hau).
Qed.

Lemma checks_never_fail_witness :
  (0 < 5)%nat /\ reach 5 late_trace late_state /\
  fatals late_trace = [] /\ inputCount late_state = 0%Z.
Proof.
  assert (Hn : (0 < 5)%nat) by lia.
  split; [exact Hn|]. split; [exact late_reach|].
  destruct (checks_never_fail 5 _ _ Hn late_reach) as (H1 & _ & _ & H4).
  split; [exact H1|]. apply H4. reflexivity.
Defined.

(** X4: the counter of the [sync.WaitGroup] is the number of collectors
    that have been registered with [wg.Add(1)] and have not called
    [wg.Done()]; it never exceeds [NumOut], and once [wg.Wait()] has
    returned it stays at zero, every collector having finished. *)
Theorem wait_group_counts_collectors n tr s :
  reach n tr s ->
  wg s = (sum_list_with active (lanes s) + adding (mn s))%nat /\
  (wg s <= n)%nat /\
  (closer s = Some ClClose \/ closer s = Some ClDone ->
   wg s = O /\
   forall k ln, lanes s !! k = Some ln -> col ln = Some CDone).
Proof.
  intros Hr. pose proof (reach_skeleton _ _ _ Hr) as Hsk.
  split; [apply (sk_wg _ _ Hsk)|]. split.
  - rewrite (sk_wg _ _ Hsk).
    assert (H1 : forall ln, (active ln <= 1)%nat)
      by (intros [? ? [[]|] ?]; unfold active; simpl; lia).
    pose proof (sk_mn _ _ Hsk) as Hmn.
    assert (Hc : (sum_list_with active (lanes s) <=
                  collectors_started n (mn s))%nat).
    { apply sum_list_with_prefix; [done|]. intros k ln Hk Hc.
      destruct (sk_lane _ _ Hsk _ _ Hk) as [_ Hcol _ _ _].
      unfold active. by rewrite (proj2 Hcol Hc). }
    destruct (mn s); simpl in *; lia.
  - intros Hc. split; [by apply (sk_closing _ _ Hsk)|].
    intros k ln Hk. by destruct (closing_quiet _ _ Hsk Hc _ _ Hk) as (_ & ? & _).
Qed.

Lemma wait_group_counts_collectors_witness :
  reach 2 demo_trace demo_state /\ wg demo_state = O /\
  forall k ln, lanes demo_state !! k = Some ln -> col ln = Some CDone.
Proof.
  split; [exact demo_reach|].
  destruct (wait_group_counts_collectors 2 _ _ demo_reach) as (_ & _ & H).
  apply H. right. reflexivity.
Defined.

(** X5: the channels are closed from the generator downwards, each by
    its only sender and once: [chIn] is closed exactly when [Generator]
    has returned; [outs[k]] is closed exactly when [Worker] [k] has
    returned, which is after [chIn] was closed and after the worker has
    handed on every value it received; and collector [k] leaves its loop
    only after [outs[k]] was closed and after it has put every value of
    its worker into [chOut]. *)
Theorem channels_close_downstream n tr s k ln :
  (0 < n)%nat -> reach n tr s -> lanes s !! k = Some ln ->
  (in_closed s = true <-> gen s = Some GDone) /\
  (occ (EvGen Gen.Closed) tr <= 1)%nat /\
  (out_closed ln = true <-> wk ln = Some WDone) /\
  (occ (EvWorker k Wk.Closed) tr <= 1)%nat /\
  (out_closed ln = true ->
   in_closed s = true /\
   Wk.put (worker_events k tr) = Wk.got (worker_events k tr)) /\
  (col ln = Some CExit \/ col ln = Some CDone ->
   out_closed ln = true /\
   published k tr = Wk.got (worker_events k tr)).
Proof.
  intros Hn Hr Hk.
  pose proof (reach_skeleton _ _ _ Hr) as Hsk.
  pose proof (reach_ledger _ _ _ Hr) as Hlg.
  pose proof (reach_audit _ _ _ Hn Hr) as Hau.
  pose proof (reach_order _ _ _ Hr) as Hor.
  destruct (sk_lane _ _ Hsk _ _ Hk) as [_ _ Hout Heof Hexit].
  assert (Hgp : out_closed ln = true ->
                Wk.put (worker_events k tr) = Wk.got (worker_events k tr)).
  { intros Hc. apply Hout in Hc.
    pose proof (lg_worker _ _ _ Hlg _ _ Hk) as Hw. rewrite Hc in Hw.
    rewrite (got_put_held _ _ Hw). simpl. by rewrite app_nil_r. }
  split; [apply (sk_in _ _ Hsk)|]. split.
  { rewrite (au_in _ _ _ Hau). destruct (in_closed s); lia. }
  split; [done|]. split.
  { rewrite (au_out _ _ _ Hau _ _ Hk). destruct (out_closed ln); lia. }
  split.
  - intros Hc. split; [|by apply Hgp].
    apply Heof. right. by apply Hout.
  - intros Hc. pose proof (Hexit Hc) as Hcl. split; [done|].
    rewrite <- (Hgp Hcl), (or_put _ _ Hor _ _ Hk). unfold col_held.
    destruct Hc as [-> | ->]; by rewrite app_nil_r.
Qed.

Lemma channels_close_downstream_witness :
  (0 < 2)%nat /\ reach 2 demo_trace demo_state /\
  in_closed demo_state = true /\
  published 1 demo_trace = Wk.got (worker_events 1 demo_trace).
Proof.
  assert (Hn : (0 < 2)%nat) by lia.
  assert (Hk : lanes demo_state !! 1%nat =
               Some (Lane (Some WDone) true (Some CDone) 1)) by reflexivity.
  split; [exact Hn|]. split; [exact demo_reach|].
  destruct (channels_close_downstream 2 _ _ _ _ Hn demo_reach Hk)
    as (_ & _ & _ & _ & H5 & H6).
  split; [apply H5; reflexivity|]. apply H6. right. reflexivity.
Defined.

(** X6: the pipeline holds a bounded number of values: [chOut] never
    buffers more than [NumOut] values, a worker and its collector hold at
    most one value each, and so the generator is never more than
    [3 * NumOut] values ahead of [main]. *)
Theorem bounded_in_flight n tr s :
  reach n tr s ->
  (length (res_buf s) <= n)%nat /\
  (forall k ln, lanes s !! k = Some ln -> (length (lane_held ln) <= 2)%nat) /\
  (length (in_flight s) <= 3 * n)%nat /\
  (length (Pipeline.sent tr) <= length (received tr) + 3 * n)%nat.
Proof.
  intros Hr.
  pose proof (reach_skeleton _ _ _ Hr) as Hsk.
  pose proof (reach_capacity _ _ _ Hr) as Hb.
  assert (H2 : forall ln, (length (lane_held ln) <= 2)%nat).
  { intros [[[]|] ? [[]|] ?]; unfold lane_held; simpl; lia. }
  assert (Hf : (length (in_flight s) <= 3 * n)%nat).
  { unfold in_flight. rewrite length_app.
    pose proof (length_bind_le lane_held 2 (lanes s) H2) as Hl.
    rewrite (sk_len _ _ Hsk) in Hl. lia. }
  split; [done|]. split; [intros; apply H2|]. split; [done|].
  rewrite (flow_perm _ _ _ (reach_ledger _ _ _ Hr)), length_app. lia.
Qed.

Lemma bounded_in_flight_witness :
  reach 2 demo_trace demo_state /\
  (length (Pipeline.sent demo_trace) <= length (received demo_trace) + 3 * 2)%nat.
Proof.
  split; [exact demo_reach|].
  destruct (bounded_in_flight 2 _ _ demo_reach) as (_ & _ & _ & H).
  exact H.
Defined.

(** X7: the deadline passes at most once, and after it the generator
    sends at most one more value: the one it was about to send when the
    deadline passed. *)
Theorem one_value_after_deadline n tr s pre post :
  reach n tr s -> tr = pre ++ EvCancel :: post ->
  occ EvCancel pre = O /\ occ EvCancel post = O /\
  (length (Pipeline.sent post) <= 1)%nat.
Proof.
  intros Hr ->. destruct (reach_deadline _ _ _ Hr) as [Honce Hsent].
  assert (Hc : cancelled s = true).
  { destruct (cancelled s); [done|].
    rewrite occ_app, occ_cons, decide_True in Honce by done. lia. }
  rewrite Hc in Honce. specialize (Hsent Hc).
  destruct (after_cancel_split _ _ Honce) as (H1 & H2 & H3).
  rewrite H3 in Hsent. split; [done|]. split; [done|].
  destruct (gen s) as [[]|]; rewrite ?Hsent; simpl; lia.
Qed.

Lemma one_value_after_deadline_witness :
  reach 5 late_trace late_state /\
  late_trace = [] ++ EvCancel :: after_cancel late_trace /\
  Pipeline.sent (after_cancel late_trace) = [1%Z] /\
  (length (Pipeline.sent (after_cancel late_trace)) <= 1)%nat.
Proof.
  assert (E : late_trace = [] ++ EvCancel :: after_cancel late_trace)
    by reflexivity.
  split; [exact late_reach|]. split; [exact E|]. split; [reflexivity|].
  destruct (one_value_after_deadline 5 _ _ _ _ late_reach E) as (_ & _ & H).
  exact H.
Defined.

(** X8: values keep their order on every path.  What [Worker] [k] has
    received is a subsequence of what the generator sent; it is what
    collector [k] has put into [chOut], then the value the collector
    holds, then the value the worker holds; [chOut] is a queue: what
    [main] has received and what is buffered is what the collectors have
    put in, in that order; and as long as the values fit an [int64] the
    values of one collector go into [chOut] in increasing order. *)
Theorem lanes_keep_order n tr s k ln :
  reach n tr s -> lanes s !! k = Some ln ->
  Wk.got (worker_events k tr) `sublist_of` Pipeline.sent tr /\
  Wk.got (worker_events k tr) =
    published k tr ++ col_held ln ++
    match wk ln with Some w => Wk.held w | None => [] end /\
  published k tr `sublist_of` published_all tr /\
  published_all tr = received tr ++ res_buf s /\
  ((Z.of_nat (length (Pipeline.sent tr)) <= Int64.max_int)%Z ->
   StronglySorted Z.lt (published k tr)).
Proof.
  intros Hr Hk.
  pose proof (reach_ledger _ _ _ Hr) as Hlg.
  destruct (reach_order _ _ _ Hr) as [Hgot Hput _ Hfifo].
  assert (E : Wk.got (worker_events k tr) =
              published k tr ++ col_held ln ++
              match wk ln with Some w => Wk.held w | None => [] end).
  { pose proof (lg_worker _ _ _ Hlg _ _ Hk) as Hw.
    pose proof (Hput _ _ Hk) as Hp.
    destruct (wk ln) as [w|].
    - by rewrite (got_put_held _ _ Hw), Hp, <- app_assoc.
    - rewrite Hw in *. simpl in *. by rewrite app_nil_r. }
  split; [apply Hgot|]. split; [done|].
  split; [apply published_sublist|]. split; [done|].
  intros Hmax. apply (sorted_sublist _ _ (Pipeline.sent tr)).
  - etransitivity; [|apply (Hgot k)]. rewrite E. by apply sublist_inserts_r.
  - rewrite (sent_rounds_tr _ _ _ Hlg), values_exact by done.
    apply sorted_seq.
Qed.

Lemma lanes_keep_order_witness :
  reach 2 demo_trace demo_state /\
  Wk.got (worker_events 0 demo_trace) `sublist_of` Pipeline.sent demo_trace /\
  published_all demo_trace = received demo_trace ++ res_buf demo_state /\
  StronglySorted Z.lt (published 0 demo_trace).
Proof.
  assert (Hk : lanes demo_state !! 0%nat =
               Some (Lane (Some WDone) true (Some CDone) 1)) by reflexivity.
  split; [exact demo_reach|].
  destruct (lanes_keep_order 2 _ _ _ _ demo_reach Hk) as (H1 & _ & _ & H4 & H5).
  split; [exact H1|]. split; [exact H4|]. apply H5. vm_compute. discriminate.
Defined.

(** X9: [amounts[k]] counts what [Worker] [k] has forwarded: at every
    moment it is, as an [int64], the number of values the worker has
    passed to its collector, less the one the collector has taken and
    not counted yet; when the collector has finished it is the number of
    values the worker received from [chIn]. *)
Theorem tally_counts_forwarded n tr s k ln :
  (0 < n)%nat -> reach n tr s -> lanes s !! k = Some ln ->
  amount ln =
    Int64.wrap (Z.of_nat (length (Wk.put (worker_events k tr))) -
                Z.of_nat (tallying ln)) /\
  (col ln = Some CDone ->
   amount ln = Int64.wrap (Z.of_nat (length (Wk.got (worker_events k tr))))).
Proof.
  intros Hn Hr Hk.
  pose proof (reach_skeleton _ _ _ Hr) as Hsk.
  pose proof (reach_ledger _ _ _ Hr) as Hlg.
  pose proof (reach_order _ _ _ Hr) as Hor.
  pose proof (lg_amount _ _ _ Hlg _ _ Hk) as Ha.
  pose proof (or_tally _ _ Hor _ _ Hk) as Ht.
  assert (E : amount ln =
    Int64.wrap (Z.of_nat (length (Wk.put (worker_events k tr))) -
                Z.of_nat (tallying ln))).
  { rewrite Ha, Ht. f_equal. lia. }
  split; [done|]. intros Hc.
  destruct (sk_lane _ _ Hsk _ _ Hk) as [_ _ Hout _ Hexit].
  assert (Hw : wk ln = Some WDone) by (apply Hout, Hexit; by right).
  pose proof (lg_worker _ _ _ Hlg _ _ Hk) as Hwr. rewrite Hw in Hwr.
  rewrite (got_put_held _ _ Hwr). simpl. rewrite app_nil_r, E.
  unfold tallying. rewrite Hc. f_equal. lia.
Qed.

Lemma tally_counts_forwarded_witness :
  (0 < 2)%nat /\ reach 2 demo_trace demo_state /\
  amount (Lane (Some WDone) true (Some CDone) 1) =
    Int64.wrap (Z.of_nat (length (Wk.got (worker_events 0 demo_trace)))).
Proof.
  assert (Hn : (0 < 2)%nat) by lia.
  assert (Hk : lanes demo_state !! 0%nat =
               Some (Lane (Some WDone) true (Some CDone) 1)) by reflexivity.
  split; [exact Hn|]. split; [exact demo_reach|].
  destruct (tally_counts_forwarded 2 _ _ _ _ Hn demo_reach Hk) as (_ & H).
  apply H. reflexivity.
Defined.

(** X10: the loop [inputCount -= v] is safe against overflow: for an
    [inputCount] that is an [int64], it ends at zero exactly when the
    tallies add up to [inputCount] in [int64] arithmetic, whatever the
    intermediate differences wrap to, and the result does not depend on
    the order of the tallies. *)
Theorem tally_loop_wraps_safely a l1 l2 :
  Int64.in_range a -> l1 ≡ₚ l2 ->
  Int64.sub_all a l1 = Int64.sub_all a l2 /\
  (Int64.sub_all a l1 = 0%Z <-> Int64.sum l1 = a) /\
  Int64.in_range (Int64.sub_all a l1).
Proof.
  intros Ha Hp. split; [|split].
  - rewrite !sub_all_total by done. by rewrite (total_perm _ _ Hp).
  - by apply sub_all_zero.
  - rewrite sub_all_total by done. apply wrap_range.
Qed.

Lemma tally_loop_wraps_safely_witness :
  Int64.in_range Int64.min_int /\
  [1%Z; Int64.max_int] ≡ₚ [Int64.max_int; 1%Z] /\
  Int64.sub_all Int64.min_int [1%Z; Int64.max_int] = 0%Z.
Proof.
  assert (Ha : Int64.in_range Int64.min_int) by (vm_compute; split; discriminate).
  assert (Hp : [1%Z; Int64.max_int] ≡ₚ [Int64.max_int; 1%Z]) by apply Permutation_swap.
  split; [exact Ha|]. split; [exact Hp|].
  destruct (tally_loop_wraps_safely _ _ _ Ha Hp) as (_ & H & _).
  apply H. reflexivity.
Defined.

(** X11: the loop of [main] keeps its accumulators in step with what it
    has received: whenever [main] is not between a receive and the two
    additions, [count] is the number of values received and [sum] is
    their sum, both as [int64]. *)
Theorem aggregator_running_totals n tr s :
  reach n tr s -> (forall v, mn s <> MAcc v) ->
  count s = Int64.wrap (Z.of_nat (length (received tr))) /\
  sum s = Int64.sum (received tr).
Proof.
  intros Hr Hm. pose proof (reach_ledger _ _ _ Hr) as Hlg.
  assert (Hp : pending s = []).
  { unfold pending. destruct (mn s) eqn:E; try done. by destruct (Hm v). }
  rewrite (lg_acc_count _ _ _ Hlg), (lg_acc_sum _ _ _ Hlg), Hp, sum_total.
  simpl. by rewrite !Z.sub_0_r.
Qed.

Lemma aggregator_running_totals_witness :
  reach 2 demo_trace demo_state /\
  (forall v, mn demo_state <> MAcc v) /\
  received demo_trace = [2%Z; 1%Z] /\
  count demo_state = 2%Z /\ sum demo_state = 3%Z.
Proof.
  assert (Hm : forall v, mn demo_state <> MAcc v)
    by (intros v; vm_compute; discriminate).
  split; [exact demo_reach|]. split; [exact Hm|]. split; [reflexivity|].
  destruct (aggregator_running_totals 2 _ _ demo_reach Hm) as (H1 & H2).
  split; [exact H1|exact H2].
Defined.

(** X12: the goroutines are started in the order of the source: a
    worker runs only when [Generator] has been started, the workers are
    started in the order of their indices, a collector runs only when
    every worker has been started, and the goroutine that closes [chOut]
    only when every collector has been. *)
Theorem goroutines_start_in_order n tr s k ln :
  reach n tr s -> lanes s !! k = Some ln ->
  (wk ln <> None -> gen s <> None) /\
  (wk ln <> None ->
   forall k' ln', (k' <= k)%nat -> lanes s !! k' = Some ln' -> wk ln' <> None) /\
  (col ln <> None ->
   forall k' ln', lanes s !! k' = Some ln' -> wk ln' <> None) /\
  (closer s <> None -> col ln <> None).
Proof.
  intros Hr Hk. pose proof (reach_skeleton _ _ _ Hr) as Hsk.
  pose proof (lookup_lt_Some _ _ _ Hk) as Hlt. rewrite (sk_len _ _ Hsk) in Hlt.
  destruct (sk_lane _ _ Hsk _ _ Hk) as [Hw Hc _ _ _].
  pose proof (sk_gen _ _ Hsk) as Hg. pose proof (sk_closer _ _ Hsk) as Hcl.
  pose proof (sk_mn _ _ Hsk) as Hmn.
  repeat split.
  - intros Hwk Hgen. apply Hg in Hgen. apply Hwk, Hw. rewrite Hgen. simpl. lia.
  - intros Hwk k' ln' Hle Hk' Hn'.
    destruct (sk_lane _ _ Hsk _ _ Hk') as [Hw' _ _ _ _].
    apply Hwk, Hw. apply Hw' in Hn'. lia.
  - intros Hcol k' ln' Hk' Hn'.
    destruct (sk_lane _ _ Hsk _ _ Hk') as [Hw' _ _ _ _].
    pose proof (lookup_lt_Some _ _ _ Hk') as Hlt'.
    rewrite (sk_len _ _ Hsk) in Hlt'.
    apply Hw' in Hn'. apply Hcol, Hc.
    destruct (mn s); simpl in *; lia.
  - intros Hclo Hcol. apply Hc in Hcol. apply Hclo, Hcl.
    destruct (mn s); simpl in *; try done; lia.
Qed.

Lemma goroutines_start_in_order_witness :
  reach 2 demo_trace demo_state /\
  gen demo_state <> None /\ closer demo_state <> None.
Proof.
  assert (Hk : lanes demo_state !! 0%nat =
               Some (Lane (Some WDone) true (Some CDone) 1)) by reflexivity.
  split; [exact demo_reach|].
  destruct (goroutines_start_in_order 2 _ _ _ _ demo_reach Hk) as (H & _).
  split; [apply H; discriminate|discriminate].
Defined.

(** X13: no value is duplicated: as long as the values fit an [int64],
    the values [main] has received and the values on their way are all
    different, and each is one of [1], ..., [m] for the number [m] of
    values sent. *)
Theorem values_arrive_once n tr s :
  reach n tr s ->
  (Z.of_nat (length (Pipeline.sent tr)) <= Int64.max_int)%Z ->
  NoDup (received tr ++ in_flight s) /\
  forall v, v ∈ received tr ++ in_flight s ->
    (1 <= v <= Z.of_nat (length (Pipeline.sent tr)))%Z.
Proof.
  intros Hr Hmax. pose proof (reach_ledger _ _ _ Hr) as Hlg.
  pose proof (flow_perm _ _ _ Hlg) as Hp.
  pose proof (sent_rounds_tr _ _ _ Hlg) as Hs.
  rewrite values_exact in Hs by done.
  split.
  - rewrite <- Hp, Hs. apply NoDup_fmap_2; [intros x y; apply Nat2Z.inj|apply NoDup_seq].
  - intros v Hv. rewrite <- Hp, Hs in Hv.
    apply list_elem_of_fmap in Hv as (i & -> & Hi%elem_of_seq). lia.
Qed.

Lemma values_arrive_once_witness :
  reach 2 demo_trace demo_state /\
  (Z.of_nat (length (Pipeline.sent demo_trace)) <= Int64.max_int)%Z /\
  NoDup (received demo_trace ++ in_flight demo_state).
Proof.
  assert (Hmax : (Z.of_nat (length (Pipeline.sent demo_trace)) <= Int64.max_int)%Z)
    by (vm_compute; discriminate).
  split; [exact demo_reach|]. split; [exact Hmax|].
  destruct (values_arrive_once 2 _ _ demo_reach Hmax) as (H & _).
  exact H.
Defined.

Lemma wind_down_step n s a s' e :
  (gen s = Some GClosing \/ gen s = Some GDone -> cancelled s = true) ->
  step n a s = Some (s', e) ->
  gen s' = Some GClosing \/ gen s' = Some GDone -> cancelled s' = true.
Proof.
  intros Hp Hstep. step_inv Hstep; simpl; norm; try done.
  all: try (intros [?|?]; simplify_eq; try done).
  all: try (apply Hp; auto; fail).
  all: try (by destruct (cancelled s)).
Qed.

Lemma reach_wind_down n tr s :
  reach n tr s ->
  gen s = Some GClosing \/ gen s = Some GDone -> cancelled s = true.
Proof.
  induction 1 as [|tr s a s' e Hr IH Hstep].
  - by intros [?|?].
  - by eapply wind_down_step.
Qed.

(** X14: [main] reads the shared variables only after their writers
    have finished: when it has left its loop, [Generator], every worker,
    every collector and the goroutine that closes [chOut] have returned,
    and no step but one of [main] (or the timer) is possible. *)
Theorem main_reads_after_writers n tr s :
  (0 < n)%nat -> reach n tr s -> drained (mn s) ->
  gen s = Some GDone /\ closer s = Some ClDone /\
  (forall k ln, lanes s !! k = Some ln ->
     wk ln = Some WDone /\ col ln = Some CDone) /\
  forall a s' e, step n a s = Some (s', e) -> a = AMain \/ a = ATimer.
Proof.
  intros Hn Hr Hd. pose proof (reach_skeleton _ _ _ Hr) as Hsk.
  destruct (drained_quiet _ _ Hn Hsk Hd) as (Hg & Hi & Hc & Hb & Hp & Hcb & Hq).
  assert (Hcl : closer s = Some ClDone) by (by apply (sk_res _ _ Hsk)).
  split; [done|]. split; [done|]. split.
  { intros k ln Hk. by destruct (Hq _ _ Hk) as (? & ? & _). }
  intros a s' e Hstep. unfold step in Hstep.
  destruct (halted s); [done|].
  destruct a as [| |k|k| |]; auto; exfalso.
  - unfold step_gen in Hstep. by rewrite Hg in Hstep.
  - unfold step_worker in Hstep.
    destruct (lanes s !! k) as [ln|] eqn:Hk; [|done].
    destruct (Hq _ _ Hk) as (Hw & _). simpl in Hstep. by rewrite Hw in Hstep.
  - unfold step_collector in Hstep.
    destruct (lanes s !! k) as [ln|] eqn:Hk; [|done].
    destruct (Hq _ _ Hk) as (_ & Hco & _). simpl in Hstep.
    by rewrite Hco in Hstep.
  - unfold step_closer in Hstep. by rewrite Hcl in Hstep.
Qed.

Lemma main_reads_after_writers_witness :
  (0 < 2)%nat /\ reach 2 demo_trace demo_state /\ drained (mn demo_state) /\
  gen demo_state = Some GDone /\ closer demo_state = Some ClDone.
Proof.
  assert (Hn : (0 < 2)%nat) by lia.
  assert (Hd : drained (mn demo_state)) by exact I.
  split; [exact Hn|]. split; [exact demo_reach|]. split; [exact Hd|].
  destruct (main_reads_after_writers 2 _ _ Hn demo_reach Hd) as (H1 & H2 & _).
  split; [exact H1|exact H2].
Defined.

(** X15: nothing shuts down before the deadline: as long as it has not
    passed, [Generator] has not left its loop, no channel is closed, no
    collector has finished and [main] is not past its loop. *)
Theorem runs_until_deadline n tr s :
  (0 < n)%nat -> reach n tr s -> cancelled s = false ->
  gen s <> Some GClosing /\ gen s <> Some GDone /\
  in_closed s = false /\ res_closed s = false /\ ~ drained (mn s) /\
  forall k ln, lanes s !! k = Some ln ->
    out_closed ln = false /\ wk ln <> Some WDone /\
    col ln <> Some CExit /\ col ln <> Some CDone.
Proof.
  intros Hn Hr Hc. pose proof (reach_skeleton _ _ _ Hr) as Hsk.
  pose proof (reach_wind_down _ _ _ Hr) as Hw.
  assert (H1 : gen s <> Some GClosing).
  { intros E. rewrite Hw in Hc; [done|by left]. }
  assert (H2 : gen s <> Some GDone).
  { intros E. rewrite Hw in Hc; [done|by right]. }
  assert (H3 : in_closed s = false).
  { apply not_true_is_false. intros E. by apply (sk_in _ _ Hsk) in E. }
  assert (H4 : res_closed s = false).
  { apply not_true_is_false. intros E.
    destruct (lookup_lt_is_Some_2 (lanes s) O) as [ln Hl].
    { by rewrite (sk_len _ _ Hsk). }
    destruct (closed_quiet _ _ Hsk E _ _ Hl) as (_ & _ & _ & Hi & _).
    congruence. }
  assert (H5 : ~ drained (mn s)).
  { intros Hd. apply (sk_drained _ _ Hsk) in Hd. congruence. }
  repeat (split; [done|]).
  intros k ln Hk. destruct (sk_lane _ _ Hsk _ _ Hk) as [_ _ Hout Heof Hexit].
  assert (H6 : wk ln <> Some WDone).
  { intros E. rewrite Heof in H3; [done|by right]. }
  assert (H7 : out_closed ln = false).
  { apply not_true_is_false. intros E. by apply Hout in E. }
  repeat split; try done.
  - intros E. rewrite Hexit in H7; [done|by left].
  - intros E. rewrite Hexit in H7; [done|by right].
Qed.

Lemma runs_until_deadline_witness :
  (0 < 5)%nat /\ reach 5 [] (steady 0) /\ cancelled (steady 0) = false /\
  in_closed (steady 0) = false /\ res_closed (steady 0) = false.
Proof.
  assert (Hn : (0 < 5)%nat) by lia.
  assert (Hr : reach 5 [] (steady 0)).
  { apply (exec_init_reach 5 setup). vm_compute. reflexivity. }
  assert (Hc : cancelled (steady 0) = false) by reflexivity.
  split; [exact Hn|]. split; [exact Hr|]. split; [exact Hc|].
  destruct (runs_until_deadline 5 _ _ Hn Hr Hc) as (_ & _ & H3 & H4 & _).
  split; [exact H3|exact H4].
Defined.

(** ** Time *)

Lemma getters_app t1 t2 : getters (t1 ++ t2) = getters t1 ++ getters t2.
Proof. apply omap_app. Qed.
Lemma getters_fatal l : getters (EvFatal <$> l) = [].
Proof. by induction l. Qed.

#[export] Hint Rewrite getters_app getters_fatal : trace.

Lemma wake_of_insert k wake x :
  (k < length wake)%nat -> wake_of k (<[k := x]> wake) = x.
Proof. intros Hk. unfold wake_of. by rewrite list_lookup_insert_eq. Qed.

Lemma wake_of_insert_ne k k' wake x :
  k <> k' -> wake_of k' (<[k := x]> wake) = wake_of k' wake.
Proof. intros Hk. unfold wake_of. by rewrite list_lookup_insert_ne. Qed.

Lemma length_occ_rest (n : nat) (l : list nat) :
  length l = (occ n l + length (filter (fun k => k <> n) l))%nat.
Proof.
  unfold occ. induction l as [|x l IH]; [done|].
  rewrite !filter_cons. repeat case_decide; simpl; lia.
Qed.

Lemma occ_rest (k n : nat) (l : list nat) :
  k <> n -> occ k (filter (fun x => x <> n) l) = occ k l.
Proof.
  intros Hk. induction l as [|x l IH]; [done|].
  rewrite filter_cons. case_decide.
  - by rewrite !occ_cons, IH.
  - rewrite occ_cons, IH. case_decide; [congruence|done].
Qed.

(** As many values as workers times the largest share. *)
Lemma shares_bound n b (l : list nat) :
  Forall (fun k => (k < n)%nat) l ->
  (forall k, (k < n)%nat -> (occ k l <= b)%nat) ->
  (length l <= n * b)%nat.
Proof.
  revert l. induction n as [|n IH]; intros l Hl Hb.
  - destruct l as [|x l]; [simpl; lia|].
    apply Forall_cons in Hl as [Hx _]. lia.
  - rewrite (length_occ_rest n l).
    assert (H1 : (length (filter (fun k => k <> n) l) <= n * b)%nat).
    { apply IH.
      - apply Forall_forall. intros k [Hk1 Hk2]%list_elem_of_filter.
        eapply Forall_forall in Hl; [|done]. simpl in Hl. lia.
      - intros k Hk. rewrite occ_rest by lia. apply Hb. lia. }
    specialize (Hb n ltac:(lia)). lia.
Qed.

Ltac clock_arith :=
  repeat match goal with
  | H : (_ <=? _)%nat = true |- _ => apply Nat.leb_le in H
  | H : (_ <=? _)%nat = false |- _ => apply Nat.leb_gt in H
  | H : negb _ = true |- _ => apply negb_true_iff in H
  | H : _ || _ = true |- _ => apply orb_true_iff in H
  | H : _ && _ = true |- _ => apply andb_true_iff in H as [? ?]
  end.

Ltac t_ck_worker Hw Hlen :=
  let k' := fresh "k'" in
  let ln' := fresh "ln'" in
  let Hl' := fresh "Hl'" in
  intros k' ln' Hl'; split_lane Hl';
  try (pose proof (Hw _ _ Hl') as [? ?]);
  autorewrite with trace; simpl; rewrite ?occ_app, ?occ_cons, ?occ_nil;
  rewrite ?wake_of_insert by lia;
  rewrite ?wake_of_insert_ne by done;
  repeat case_decide; simplify_eq; norm;
  rewrite ?wake_of_insert by lia;
  rewrite ?wake_of_insert_ne by done;
  lia.

Lemma sent_bound n b tr s now wake :
  skeleton n s ->
  length (Pipeline.sent tr) = length (getters tr) ->
  Forall (fun k => (k < n)%nat) (getters tr) ->
  (forall k ln, lanes s !! k = Some ln ->
     (occ k (getters tr) <=
        match wk ln with
        | Some WSleep => wake_of k wake
        | Some (WSend _) => S now
        | _ => now
        end)%nat /\ (wake_of k wake <= S now)%nat) ->
  (now <= b)%nat ->
  (length (Pipeline.sent tr) <= n * S b)%nat.
Proof.
  intros Hsk Htake Hidx Hw Hb. rewrite Htake.
  apply shares_bound; [done|]. intros k Hk.
  destruct (lookup_lt_is_Some_2 (lanes s) k) as [ln Hl].
  { by rewrite (sk_len _ _ Hsk). }
  destruct (Hw _ _ Hl) as [H1 H2].
  destruct (wk ln) as [[]|]; lia.
Qed.

Lemma clock_act n timeout late tr s now wake a s' e :
  skeleton n s -> deadline tr s -> clock n timeout late tr s now wake ->
  due timeout a s now wake = true -> step n a s = Some (s', e) ->
  clock n timeout late (tr ++ e) s' now (wake_after a s now wake).
Proof.
  intros Hsk Hdl Hck Hdue Hstep.
  pose proof (fun b => sent_bound n b tr s now wake Hsk (ck_take _ _ _ _ _ _ _ Hck)
                (ck_index _ _ _ _ _ _ _ Hck) (ck_worker _ _ _ _ _ _ _ Hck)) as Hsb.
  pose proof (sk_crashed _ _ (skeleton_step _ _ _ _ _ Hsk Hstep)) as Hcr'.
  step_inv Hstep.
  all: try done.
  all: destruct Hsk as [Hcr Hlen Hmn Hsgen Hin Hlane Hwg Hcl Hclosing Hres Hdr Hemp].
  all: lane_facts Hlane.
  all: repeat match goal with H : lane_ok _ _ _ _ _ |- _ => destruct H end.
  all: clear Hlane Hwg Hcl Hclosing Hres Hdr Hemp Hin Hmn Hsgen.
  all: arith; norm; chain.
  all: destruct Hdl as [Honce _].
  all: destruct Hck as [Hwl Hnow Htake Hidx Hw Hbefore].
  all: try match goal with
       | Hk : lanes ?s !! ?k = Some ?ln |- _ =>
           pose proof (Hw _ _ Hk) as [? ?];
           pose proof (lookup_lt_Some _ _ _ Hk)
       end.
  all: unfold due, wake_after, sending, sleeping in *.
  all: repeat match goal with
       | Hk : lanes ?s !! ?k = Some ?ln |- _ => rewrite Hk in *
       end.
  all: destruct (cancelled s) eqn:Hc; simpl in *; try done.
  all: try specialize (Hnow eq_refl).
  all: try specialize (Hbefore eq_refl).
  all: norm; clock_arith.
  all: try done.
  all: constructor; simpl; norm.
  all: rewrite ?length_insert.
  all: try assumption.
  all: try done.
  all: try (intros _; assumption).
  all: try (unfold Pipeline.sent; autorewrite with trace; simpl;
            autorewrite with trace; simpl;
            rewrite ?app_nil_r, ?length_app; simpl; unfold Pipeline.sent in Htake;
            lia).
  all: try (autorewrite with trace; simpl; rewrite ?app_nil_r;
            first [ assumption
                  | apply Forall_app; split; [assumption|];
                    apply Forall_singleton; lia ]).
  all: try (t_ck_worker Hw Hwl).
  all: try (intros _; rewrite after_cancel_in by lia;
            rewrite !tr_sent_app, !length_app; lia).
  all: intros _; rewrite after_cancel_out by lia.
  all: rewrite tr_sent_app, length_app.
  all: change (Pipeline.sent [EvCancel]) with (@nil Z).
  all: change (Pipeline.sent (after_cancel [EvCancel])) with (@nil Z).
  all: pose proof (Hsb _ Hnow); simpl; lia.
Qed.

Lemma clock_tick n timeout late tr s now wake :
  clock n timeout late tr s now wake ->
  cancelled s = true \/ (now < timeout + late)%nat ->
  clock n timeout late tr s (S now) wake.
Proof.
  intros [Hwl Hnow Htake Hidx Hw Hbefore] Ht.
  constructor; try done.
  - intros Hc. destruct Ht as [Ht|Ht]; [congruence|lia].
  - intros k ln Hk. destruct (Hw _ _ Hk) as [H1 H2].
    split; [|lia]. destruct (wk ln) as [[]|]; lia.
Qed.

Lemma clock_init n timeout late :
  clock n timeout late [] (init n) O (replicate n O).
Proof.
  constructor; simpl; try done.
  - by rewrite length_replicate.
  - lia.
  - intros k ln [-> Hk]%lookup_replicate. simpl. unfold wake_of.
    rewrite occ_nil. destruct (replicate n O !! k) eqn:E; simpl; [|lia].
    apply lookup_replicate in E as [-> _]. lia.
Qed.

Lemma treach_clock n timeout late tr t :
  treach n timeout late tr t ->
  reach n tr (base t) /\ clock n timeout late tr (base t) (now t) (wake t).
Proof.
  induction 1 as [|tr t x t' e Hr [IHr IHc] Hstep].
  - split; [apply reach_init|apply clock_init].
  - destruct x as [|a]; simpl in Hstep.
    + destruct (ctx_made (mn (base t)) &&
                (cancelled (base t) || (now t <? timeout + late)%nat)) eqn:Hg;
        [|done].
      simplify_eq/=. rewrite app_nil_r. split; [done|].
      apply clock_tick; [done|].
      apply andb_true_iff in Hg as [_ Hg]. apply orb_true_iff in Hg as [Hg|Hg].
      * by left.
      * right. by apply Nat.ltb_lt.
    + destruct (due timeout a (base t) (now t) (wake t)) eqn:Hd; [|done].
      destruct (step n a (base t)) as [[s' e']|] eqn:Hs; [|done].
      simplify_eq/=. split; [by eapply reach_step|].
      eapply clock_act; eauto using reach_skeleton, reach_deadline.
Qed.

Lemma texec_treach n timeout late sched : forall tr t t' e,
  treach n timeout late tr t -> texec n timeout late sched t = Some (t', e) ->
  treach n timeout late (tr ++ e) t'.
Proof.
  induction sched as [|x sched IH]; intros tr t t' e Hr He; simpl in He.
  - simplify_eq. by rewrite app_nil_r.
  - destruct (tstep n timeout late x t) as [[t1 e1]|] eqn:Hs; [|done].
    simpl in He.
    destruct (texec n timeout late sched t1) as [[t2 e2]|] eqn:Hx; [|done].
    simplify_eq/=. rewrite app_assoc. eapply IH; [|done].
    by eapply treach_step.
Qed.

Lemma timed_reach : treach 5 1000 0 timed_trace timed_state.
Proof.
  apply (texec_treach 5 1000 0 timed_sched [] _ _ _ (treach_init 5 1000 0)).
  vm_compute. reflexivity.
Qed.

(** X16: the deadline bounds the number of values.  When a sleep of a
    millisecond lasts a millisecond or more and [ctx.Done()] is closed
    no later than [late] milliseconds after the deadline, every run is
    a run of the program as above, and at most
    [NumOut * (timeout + late + 1) + 1] values are sent: each worker
    takes one value per millisecond at most, and one more value is sent
    after the deadline at most.  With the five workers and the second of
    the source this is far below 2^32, so that the accumulators of the
    observer hold the number of values observed and its triangular
    number themselves, not only modulo 2^64. *)
Theorem few_values_within_deadline n timeout late tr t :
  treach n timeout late tr t ->
  reach n tr (base t) /\
  (length (Pipeline.sent tr) <= n * S (timeout + late) + 1)%nat /\
  ((Z.of_nat (n * S (timeout + late) + 1) < 4294967296)%Z ->
   inputSum (base t) =
     Int64.triangle (Z.of_nat (length (Pipeline.observed tr))) /\
   (mn (base t) <> MExit -> in_callback (base t) = 0%Z ->
    inputCount (base t) = Z.of_nat (length (Pipeline.observed tr)))).
Proof.
  intros Ht. destruct (treach_clock _ _ _ _ _ Ht) as [Hr Hck].
  pose proof (reach_skeleton _ _ _ Hr) as Hsk.
  pose proof (reach_ledger _ _ _ Hr) as Hlg.
  destruct (reach_deadline _ _ _ Hr) as [_ Hdl].
  assert (Hs : (length (Pipeline.sent tr) <= n * S (timeout + late) + 1)%nat).
  { destruct (cancelled (base t)) eqn:Hc.
    - pose proof (ck_before _ _ _ _ _ _ _ Hck Hc) as Hb.
      specialize (Hdl eq_refl).
      assert (length (Pipeline.sent (after_cancel tr)) <= 1)%nat; [|lia].
      destruct (gen (base t)) as [[]|]; rewrite ?Hdl; simpl; lia.
    - pose proof (sent_bound n (timeout + late) tr _ _ _ Hsk
                    (ck_take _ _ _ _ _ _ _ Hck) (ck_index _ _ _ _ _ _ _ Hck)
                    (ck_worker _ _ _ _ _ _ _ Hck)
                    (ck_now _ _ _ _ _ _ _ Hck Hc)).
      lia. }
  split; [done|]. split; [done|]. intros Hmax.
  assert (Hk : (Z.of_nat (length (Pipeline.observed tr)) < 4294967296)%Z).
  { pose proof (sent_observed_tr _ _ _ Hlg) as E.
    apply (f_equal length) in E. rewrite length_app in E. lia. }
  split.
  - rewrite (lg_sum _ _ _ Hlg), (observed_rounds_tr _ _ _ Hlg) at 1.
    rewrite sum_values. apply wrap_small, triangle_small. lia.
  - intros Hne Hcb. rewrite (lg_count _ _ _ Hlg Hne), Hcb, Z.sub_0_r.
    apply wrap_small.
    unfold Int64.in_range, Int64.min_int, Int64.max_int. lia.
Qed.

Lemma few_values_within_deadline_witness :
  treach 5 1000 0 timed_trace timed_state /\
  Pipeline.sent timed_trace = [1%Z; 2%Z] /\
  (length (Pipeline.sent timed_trace) <= 5 * S (1000 + 0) + 1)%nat /\
  inputSum (base timed_state) = 3%Z.
Proof.
  split; [exact timed_reach|]. split; [reflexivity|].
  destruct (few_values_within_deadline 5 1000 0 _ _ timed_reach)
    as (_ & H1 & H2).
  split; [exact H1|].
  destruct H2 as [H2 _]; [reflexivity|]. exact H2.
Defined.
